(** * Town Map Puzzle: a shallow embedding of [TownMapPuzzle.py]

    The Python module keeps the whole game in module-level globals
    ([map_tiles], [slots], [pieces], [shuffled_tray], [held_piece],
    [drag_offset], [complete], [win_timer]) and mutates them from the event
    loop of [main].  Here the globals are the fields of one record that is
    passed from step to step; Python exceptions (including [sys.exit]) are the
    [Raise] outcome of a small error monad.

    Python integers are unbounded, so pixel coordinates are [Z]; list
    positions and grid indices are [nat].  Python's [//] and [%] are floor
    division and its remainder, which is what [Z.div]/[Z.modulo] (and, on
    naturals, [Nat.div]/[Nat.modulo]) compute. *)

From Stdlib Require Import ZArith Lia Bool.
From stdpp Require Import base tactics option numbers list.

(* ===================================================================== *)
(** ** Exceptions and the error monad *)
(* ===================================================================== *)

Inductive exn : Type :=
| IndexError          (* list index out of range *)
| FileNotFoundError   (* pygame.image.load on a path that does not exist *)
| PygameError         (* pygame.image.load on a file it cannot decode *)
| SystemExit.         (* sys.exit() *)

Inductive result (A : Type) : Type :=
| Ret (a : A)
| Raise (e : exn).

Arguments Ret {A} a.
Arguments Raise {A} e.

Definition bind {A B : Type} (m : result A) (k : A -> result B) : result B :=
  match m with
  | Ret a => k a
  | Raise e => Raise e
  end.

Notation "x <- m ;; k" := (bind m (fun x => k))
  (at level 100, m at next level, right associativity).

(** [l[i]] for a non-negative index: raises [IndexError] out of range. *)
Definition idx {A : Type} (l : list A) (i : nat) : result A :=
  match l !! i with
  | Some a => Ret a
  | None => Raise IndexError
  end.

(** A list comprehension [[f(i) for i in l]] whose body may raise. *)
Fixpoint for_each {A B : Type} (f : A -> result B) (l : list A) : result (list B) :=
  match l with
  | [] => Ret []
  | a :: l' => b <- f a ;; bs <- for_each f l' ;; Ret (b :: bs)
  end.

(* ===================================================================== *)
(** ** Layout constants *)
(* ===================================================================== *)

Definition SCREEN_W : Z := 960.
Definition SCREEN_H : Z := 640.

Definition COLS : nat := 3.
Definition ROWS : nat := 3.
Definition TILE_SIZE : Z := 160.
Definition BOARD_X : Z := 350.
Definition BOARD_Y : Z := (SCREEN_H - Z.of_nat ROWS * TILE_SIZE) / 2.
Definition TRAY_X : Z := 10.
Definition TRAY_Y : Z := 10.
Definition TRAY_W : Z := 320.
Definition TRAY_H : Z := SCREEN_H - 20.
Definition TRAY_COLS : nat := 2.
Definition TRAY_PAD : Z := 12.

(** [pygame.K_r] is the code point of the letter r. *)
Definition K_r : Z := 114.

(* ===================================================================== *)
(** ** Rectangles and surfaces *)
(* ===================================================================== *)

(** [pygame.Rect(x, y, w, h)]. *)
Record Rect : Type := mkRect { rx : Z; ry : Z; rw : Z; rh : Z }.

(** [Rect.collidepoint]: the left and top edges are inside, the right and
    bottom edges are not. *)
Definition collidepoint (r : Rect) (x y : Z) : bool :=
  (rx r <=? x)%Z && (x <? rx r + rw r)%Z && (ry r <=? y)%Z && (y <? ry r + rh r)%Z.

(** What a surface shows.  Image decoding is outside the model: a tile cut
    from the picture is identified by the source rectangle it was blitted
    from, a placeholder by its fill colour and the position of its glyph in
    [FALLBACK_ICONS]. *)
Inductive Pixels : Type :=
| Region (src : Rect)
| Flat (colour : Z * Z * Z) (icon : nat).

Record Surface : Type := mkSurface { pixels : Pixels; surf_w : Z; surf_h : Z }.

(** [pygame.transform.scale(surf, (w, h))]. *)
Definition scale (s : Surface) (size : Z * Z) : Surface :=
  {| pixels := pixels s; surf_w := fst size; surf_h := snd size |}.

(* ===================================================================== *)
(** ** Loading and slicing the picture *)
(* ===================================================================== *)

(** The file at [MAP_IMAGE_PATH], as the two library calls see it:
    [os.path.exists] is true unless it is [Missing]; [pygame.image.load]
    returns a surface only for a [Readable] file. *)
Inductive ImageFile : Type :=
| Missing
| Unreadable
| Readable (w h : Z).

Definition path_exists (f : ImageFile) : bool :=
  match f with
  | Missing => false
  | _ => true
  end.

Definition image_load (f : ImageFile) : result Surface :=
  match f with
  | Missing => Raise FileNotFoundError
  | Unreadable => Raise PygameError
  | Readable w h => Ret {| pixels := Region (mkRect 0 0 w h); surf_w := w; surf_h := h |}
  end.

(** One tile of the scaled picture: the surface that received
    [blit(full_img, (0, 0), src_rect)]. *)
Definition slice_tile (tile_size : Z) (row col : nat) : Surface :=
  {| pixels := Region (mkRect (Z.of_nat col * tile_size) (Z.of_nat row * tile_size)
                              tile_size tile_size);
     surf_w := tile_size; surf_h := tile_size |}.

(** [load_map_tiles]: [None] when the file is not there (after printing the
    warning), the row-major list of tiles otherwise.  The two [print] calls
    write to standard output and touch no program state; they are left out.
    [pygame.transform.scale] and [pygame.Surface] refuse a negative size:
    the model is the code for [tile_size >= 0], and the program passes
    [TILE_SIZE]. *)
Definition load_map_tiles (f : ImageFile) (tile_size : Z) (cols rows : nat)
  : result (option (list Surface)) :=
  if negb (path_exists f) then Ret None
  else
    raw_img <- image_load f ;;
    let full_img := scale raw_img (tile_size * Z.of_nat cols, tile_size * Z.of_nat rows)%Z in
    Ret (Some (flat_map (fun row => (fun col => slice_tile tile_size row col) <$> seq 0 cols)
                        (seq 0 rows))).

Definition FALLBACK_COLOURS : list (Z * Z * Z) :=
  [ (100, 140, 190); ( 80, 170, 100); (190, 130,  80);
    (200,  80,  80); (170, 120, 200); (220, 100,  60);
    ( 90, 160, 180); (160, 150, 100); (110, 110, 170) ]%Z.

(** [FALLBACK_ICONS] holds nine glyphs; only their positions matter here. *)
Definition FALLBACK_ICONS : list nat := seq 0 9.

(** [make_fallback_tile]; as above, the model is the code for
    [tile_size >= 0]. *)
Definition make_fallback_tile (index : nat) (tile_size : Z) : result Surface :=
  colour <- idx FALLBACK_COLOURS (index mod length FALLBACK_COLOURS) ;;
  icon <- idx FALLBACK_ICONS (index mod length FALLBACK_ICONS) ;;
  Ret {| pixels := Flat colour icon; surf_w := tile_size; surf_h := tile_size |}.

(** Lines 123-127: the tiles the game will use. *)
Definition load_tiles (f : ImageFile) : result (list Surface) :=
  map_tiles <- load_map_tiles f TILE_SIZE COLS ROWS ;;
  match map_tiles with
  | None => for_each (fun i => make_fallback_tile i TILE_SIZE) (seq 0 (COLS * ROWS))
  | Some tiles => Ret tiles
  end.

(** Lines 130-136: the ghost picture under the board.  The load is not
    guarded by any existence test. *)
Definition load_reference_image (f : ImageFile) : result Surface :=
  reference_image <- image_load f ;;
  Ret (scale reference_image (Z.of_nat COLS * TILE_SIZE, Z.of_nat ROWS * TILE_SIZE)%Z).

(* ===================================================================== *)
(** ** Pieces and slots *)
(* ===================================================================== *)

Module Piece.

Record t : Type := mk {
  index : nat;        (* which slot this piece belongs to *)
  image : Surface;
  placed : bool;
  rect : Rect
}.

(** [Piece.__init__]; [map_tiles[index]] may raise. *)
Definition init (map_tiles : list Surface) (index : nat) : result t :=
  image <- idx map_tiles index ;;
  Ret {| index := index; image := image; placed := false;
         rect := mkRect 0 0 TILE_SIZE TILE_SIZE |}.

End Piece.

Module Slot.

Record t : Type := mk {
  index : nat;
  rect : Rect;
  filled : bool
}.

(** [Slot.__init__]. *)
Definition init (index : nat) : t :=
  let col := index mod COLS in
  let row := index / COLS in
  {| index := index;
     rect := mkRect (BOARD_X + Z.of_nat col * TILE_SIZE)
                    (BOARD_Y + Z.of_nat row * TILE_SIZE)
                    TILE_SIZE TILE_SIZE;
     filled := false |}.

End Slot.

(* ===================================================================== *)
(** ** The program state *)
(* ===================================================================== *)

(** The module's globals, and [running], the local of [main] that the
    restart key clears.  The [Piece] objects live in the list [pieces] and are
    never added, removed or reordered, so a reference to one of them (an
    element of the local list [unplaced], the global [held_piece]) is its
    position in [pieces]: writing through the reference updates that
    position. *)
Record Game : Type := mkGame {
  map_tiles : list Surface;
  slots : list Slot.t;
  pieces : list Piece.t;
  shuffled_tray : list nat;
  held_piece : option nat;
  drag_offset : Z * Z;
  complete : bool;
  win_timer : Z;
  running : bool
}.

Definition set_pieces (g : Game) (ps : list Piece.t) : Game :=
  {| map_tiles := map_tiles g; slots := slots g; pieces := ps;
     shuffled_tray := shuffled_tray g; held_piece := held_piece g;
     drag_offset := drag_offset g; complete := complete g;
     win_timer := win_timer g; running := running g |}.

Definition set_slots (g : Game) (ss : list Slot.t) : Game :=
  {| map_tiles := map_tiles g; slots := ss; pieces := pieces g;
     shuffled_tray := shuffled_tray g; held_piece := held_piece g;
     drag_offset := drag_offset g; complete := complete g;
     win_timer := win_timer g; running := running g |}.

Definition set_shuffled_tray (g : Game) (tray : list nat) : Game :=
  {| map_tiles := map_tiles g; slots := slots g; pieces := pieces g;
     shuffled_tray := tray; held_piece := held_piece g;
     drag_offset := drag_offset g; complete := complete g;
     win_timer := win_timer g; running := running g |}.

Definition set_held (g : Game) (h : option nat) (off : Z * Z) : Game :=
  {| map_tiles := map_tiles g; slots := slots g; pieces := pieces g;
     shuffled_tray := shuffled_tray g; held_piece := h;
     drag_offset := off; complete := complete g;
     win_timer := win_timer g; running := running g |}.

Definition set_win (g : Game) (c : bool) (w : Z) : Game :=
  {| map_tiles := map_tiles g; slots := slots g; pieces := pieces g;
     shuffled_tray := shuffled_tray g; held_piece := held_piece g;
     drag_offset := drag_offset g; complete := c;
     win_timer := w; running := running g |}.

Definition set_running (g : Game) (r : bool) : Game :=
  {| map_tiles := map_tiles g; slots := slots g; pieces := pieces g;
     shuffled_tray := shuffled_tray g; held_piece := held_piece g;
     drag_offset := drag_offset g; complete := complete g;
     win_timer := win_timer g; running := r |}.

(* ===================================================================== *)
(** ** [random.shuffle] *)
(* ===================================================================== *)

(** [x[i], x[j] = x[j], x[i]].  Both positions are in range wherever
    [shuffle] uses it ([swap_in_range] below), so the last branch never
    runs. *)
Definition swap (x : list nat) (i j : nat) : list nat :=
  match x !! j, x !! i with
  | Some xj, Some xi => <[j := xi]> (<[i := xj]> x)
  | _, _ => x
  end.

(** The library routine is the Fisher-Yates loop
    [for i in reversed(range(1, len(x))): j = randbelow(i + 1); swap].
    The randomness source is an argument: [rand i] is the raw draw made at
    loop index [i], brought into [0, i] as [randbelow] does. *)
Fixpoint shuffle_loop (rand : nat -> nat) (i : nat) (x : list nat) : list nat :=
  match i with
  | 0 => x
  | S i' => shuffle_loop rand i' (swap x i (rand i mod (i + 1)))
  end.

Definition shuffle (rand : nat -> nat) (x : list nat) : list nat :=
  shuffle_loop rand (length x - 1) x.

(* ===================================================================== *)
(** ** Tray layout *)
(* ===================================================================== *)

(** [[pieces[i] for i in shuffled_tray if not pieces[i].placed]], as
    references. *)
Fixpoint unplaced_of (ps : list Piece.t) (tray : list nat) : result (list nat) :=
  match tray with
  | [] => Ret []
  | i :: tray' =>
      p <- idx ps i ;;
      rest <- unplaced_of ps tray' ;;
      Ret (if Piece.placed p then rest else i :: rest)
  end.

Definition tile_w : Z := (TRAY_W - TRAY_PAD * (Z.of_nat TRAY_COLS + 1)) / Z.of_nat TRAY_COLS.

(** The rectangle of the [i]-th entry of the tray. *)
Definition tray_cell (i : nat) : Rect :=
  let tray_col := i mod TRAY_COLS in
  let tray_row := i / TRAY_COLS in
  let x := (TRAY_X + TRAY_PAD + Z.of_nat tray_col * (tile_w + TRAY_PAD))%Z in
  let y := (TRAY_Y + 70 + Z.of_nat tray_row * (tile_w + TRAY_PAD))%Z in
  mkRect x y tile_w tile_w.

(** The body of [for i, piece in enumerate(unplaced)], from position [i]. *)
Fixpoint layout_loop (tiles : list Surface) (i : nat) (unplaced : list nat)
    (ps : list Piece.t) : result (list Piece.t) :=
  match unplaced with
  | [] => Ret ps
  | r :: rest =>
      piece <- idx ps r ;;
      tile <- idx tiles (Piece.index piece) ;;
      layout_loop tiles (S i) rest
        (<[r := {| Piece.index := Piece.index piece;
                   Piece.image := scale tile (tile_w, tile_w);
                   Piece.placed := Piece.placed piece;
                   Piece.rect := tray_cell i |}]> ps)
  end.

Definition layout_tray (g : Game) : result Game :=
  unplaced <- unplaced_of (pieces g) (shuffled_tray g) ;;
  ps <- layout_loop (map_tiles g) 0 unplaced (pieces g) ;;
  Ret (set_pieces g ps).

(* ===================================================================== *)
(** ** Start-up: the module-level statements *)
(* ===================================================================== *)

(** Lines 123-214, in order.  [running] is not yet bound at this point; it is
    given the value [main] assigns before its first use. *)
Definition module_init (f : ImageFile) (rand : nat -> nat) : result Game :=
  tiles <- load_tiles f ;;
  reference_image <- load_reference_image f ;;
  let slots := Slot.init <$> seq 0 (COLS * ROWS) in
  pieces <- for_each (Piece.init tiles) (seq 0 (COLS * ROWS)) ;;
  let shuffled_tray := shuffle rand (seq 0 (length pieces)) in
  layout_tray {| map_tiles := tiles; slots := slots; pieces := pieces;
                 shuffled_tray := shuffled_tray; held_piece := None;
                 drag_offset := (0, 0)%Z; complete := false; win_timer := 0;
                 running := true |}.

(* ===================================================================== *)
(** ** [main]: reset, event handling, frames *)
(* ===================================================================== *)

(** The body of [for piece in pieces] at the top of the outer loop. *)
Definition reset_piece (tiles : list Surface) (piece : Piece.t) : result Piece.t :=
  image <- idx tiles (Piece.index piece) ;;
  Ret {| Piece.index := Piece.index piece; Piece.image := image;
         Piece.placed := false; Piece.rect := Piece.rect piece |}.

Definition reset_slot (slot : Slot.t) : Slot.t :=
  {| Slot.index := Slot.index slot; Slot.rect := Slot.rect slot; Slot.filled := false |}.

(** Lines 289-300: what the outer [while True] does before it enters the
    inner loop.  [drag_offset] is not reset. *)
Definition new_game (rand : nat -> nat) (g : Game) : result Game :=
  let shuffled_tray := shuffle rand (shuffled_tray g) in
  pieces <- for_each (reset_piece (map_tiles g)) (pieces g) ;;
  let slots := reset_slot <$> slots g in
  layout_tray {| map_tiles := map_tiles g; slots := slots; pieces := pieces;
                 shuffled_tray := shuffled_tray; held_piece := None;
                 drag_offset := drag_offset g; complete := false; win_timer := 0;
                 running := true |}.

Inductive Event : Type :=
| QUIT
| KEYDOWN (key : Z)
| MOUSEBUTTONDOWN (pos : Z * Z) (button : Z)
| MOUSEMOTION (pos : Z * Z)
| MOUSEBUTTONUP (pos : Z * Z) (button : Z)
| OTHER.

(** Lines 319-327: [for i in shuffled_tray[::-1]], with [order] the part of
    the reversed list still to visit.  Nothing is written before the
    [break]. *)
Fixpoint pick_loop (g : Game) (mouse_x mouse_y : Z) (order : list nat) : result Game :=
  match order with
  | [] => Ret g
  | i :: order' =>
      piece <- idx (pieces g) i ;;
      if negb (Piece.placed piece) && collidepoint (Piece.rect piece) mouse_x mouse_y then
        tile <- idx (map_tiles g) (Piece.index piece) ;;
        let rect := mkRect (rx (Piece.rect piece)) (ry (Piece.rect piece))
                           TILE_SIZE TILE_SIZE in
        let piece' := {| Piece.index := Piece.index piece;
                         Piece.image := scale tile (TILE_SIZE, TILE_SIZE);
                         Piece.placed := Piece.placed piece;
                         Piece.rect := rect |} in
        Ret (set_held (set_pieces g (<[i := piece']> (pieces g)))
                      (Some i) (mouse_x - rx rect, mouse_y - ry rect)%Z)
      else pick_loop g mouse_x mouse_y order'
  end.

Definition pointer_down (g : Game) (pos : Z * Z) : result Game :=
  if complete g then Ret g
  else pick_loop g (fst pos) (snd pos) (reverse (shuffled_tray g)).

(** Lines 329-333.  A [pygame.Rect] keeps C [int]s, and the assignments to
    [rect.x] and [rect.y] refuse a value outside their range: the model is
    the code for the coordinates a window system reports. *)
Definition pointer_motion (g : Game) (pos : Z * Z) : result Game :=
  match held_piece g with
  | Some h =>
      held <- idx (pieces g) h ;;
      let rect := mkRect (fst pos - fst (drag_offset g)) (snd pos - snd (drag_offset g))
                         (rw (Piece.rect held)) (rh (Piece.rect held)) in
      Ret (set_pieces g (<[h := {| Piece.index := Piece.index held;
                                   Piece.image := Piece.image held;
                                   Piece.placed := Piece.placed held;
                                   Piece.rect := rect |}]> (pieces g)))
  | None => Ret g
  end.

(** Lines 338-347: [for slot in slots], with [n] the position of the slot
    being looked at and [rest] the slots from there on. *)
Fixpoint drop_loop (g : Game) (h : nat) (mouse_x mouse_y : Z) (n : nat)
    (rest : list Slot.t) : result Game :=
  match rest with
  | [] => Ret g
  | slot :: rest' =>
      if negb (Slot.filled slot) && collidepoint (Slot.rect slot) mouse_x mouse_y then
        held <- idx (pieces g) h ;;
        if Slot.index slot =? Piece.index held then
          tile <- idx (map_tiles g) (Piece.index held) ;;
          let slot' := {| Slot.index := Slot.index slot; Slot.rect := Slot.rect slot;
                          Slot.filled := true |} in
          let held' := {| Piece.index := Piece.index held;
                          Piece.image := scale tile (TILE_SIZE, TILE_SIZE);
                          Piece.placed := true;
                          Piece.rect := Slot.rect slot |} in
          Ret (set_pieces (set_slots g (<[n := slot']> (slots g)))
                          (<[h := held']> (pieces g)))
        else Ret g   (* only check one slot *)
      else drop_loop g h mouse_x mouse_y (S n) rest'
  end.

Definition pointer_up (g : Game) (pos : Z * Z) : result Game :=
  match held_piece g with
  | Some h =>
      if negb (complete g) then
        g1 <- drop_loop g h (fst pos) (snd pos) 0 (slots g) ;;
        g2 <- layout_tray (set_held g1 None (drag_offset g1)) ;;
        Ret (if forallb Slot.filled (slots g2) then set_win g2 true 0 else g2)
      else Ret g
  | None => Ret g
  end.

(** One iteration of [for event in pygame.event.get()]. *)
Definition handle_event (g : Game) (event : Event) : result Game :=
  match event with
  | QUIT => Raise SystemExit
  | KEYDOWN key => Ret (if (key =? K_r)%Z then set_running g false else g)
  | MOUSEBUTTONDOWN pos button =>
      if (button =? 1)%Z then pointer_down g pos else Ret g
  | MOUSEMOTION pos => pointer_motion g pos
  | MOUSEBUTTONUP pos button =>
      if (button =? 1)%Z then pointer_up g pos else Ret g
  | OTHER => Ret g
  end.

(* ===================================================================== *)
(** ** [draw] *)
(* ===================================================================== *)

(** [draw] writes nothing to the game state.  Of what it paints, the model
    keeps the image blits, in paint order: which piece's image went to which
    rectangle.  The overlay colour is built from [win_timer], and
    [Surface.fill] refuses a negative component: the model is the code for a
    win timer that is not negative, as it is when no frame duration is. *)
Inductive Blit : Type :=
| SlotBlit (piece : nat) (dest : Rect)
| PieceBlit (piece : nat) (dest : Rect) (held : bool).

(** Lines 247-249 with [Slot.draw]. *)
Fixpoint draw_slots (ps : list Piece.t) (ss : list Slot.t) : result (list Blit) :=
  match ss with
  | [] => Ret []
  | slot :: ss' =>
      if Slot.filled slot then
        piece_for_slot <- idx ps (Slot.index slot) ;;
        rest <- draw_slots ps ss' ;;
        Ret (SlotBlit (Slot.index slot) (Slot.rect slot) :: rest)
      else draw_slots ps ss'
  end.

(** Lines 252-255 with [Piece.draw]. *)
Fixpoint draw_tray (ps : list Piece.t) (held_piece : option nat) (tray : list nat)
  : result (list Blit) :=
  match tray with
  | [] => Ret []
  | i :: tray' =>
      piece <- idx ps i ;;
      rest <- draw_tray ps held_piece tray' ;;
      Ret (if negb (Piece.placed piece) && negb (bool_decide (held_piece = Some i))
           then PieceBlit i (Piece.rect piece) false :: rest
           else rest)
  end.

(** Lines 258-259 with [Piece.draw]. *)
Definition draw_held (ps : list Piece.t) (held_piece : option nat) : result (list Blit) :=
  match held_piece with
  | Some h =>
      held <- idx ps h ;;
      Ret (if Piece.placed held then [] else [PieceBlit h (Piece.rect held) true])
  | None => Ret []
  end.

Definition draw (g : Game) : result (list Blit) :=
  on_board <- draw_slots (pieces g) (slots g) ;;
  in_tray <- draw_tray (pieces g) (held_piece g) (shuffled_tray g) ;;
  on_top <- draw_held (pieces g) (held_piece g) ;;
  Ret (on_board ++ in_tray ++ on_top).

(* ===================================================================== *)
(** ** Frames and whole runs *)
(* ===================================================================== *)

(** Lines 355-359, then the [while running] test: a cleared [running] leaves
    the inner loop and the outer loop starts the next game. *)
Definition end_frame (ms_elapsed : Z) (rand : nat -> nat) (g : Game) : result Game :=
  let g1 := if complete g then set_win g true (win_timer g + ms_elapsed) else g in
  _ <- draw g1 ;;
  if running g1 then Ret g1 else new_game rand g1.

(** What the environment feeds the loop: an event, or the end of the frame's
    event list, with the duration [clock.tick] measured for the frame and the
    draws a restart would use. *)
Inductive Input : Type :=
| Ev (event : Event)
| Tick (ms_elapsed : Z) (rand : nat -> nat).

Definition step (g : Game) (i : Input) : result Game :=
  match i with
  | Ev event => handle_event g event
  | Tick ms_elapsed rand => end_frame ms_elapsed rand g
  end.

Fixpoint run (g : Game) (inputs : list Input) : result Game :=
  match inputs with
  | [] => Ret g
  | i :: inputs' => g' <- step g i ;; run g' inputs'
  end.

(** [main] on an input trace, after the module-level statements. *)
Definition main (rand : nat -> nat) (inputs : list Input) (g : Game) : result Game :=
  g1 <- new_game rand g ;;
  run g1 inputs.

Definition program (f : ImageFile) (rand0 rand1 : nat -> nat) (inputs : list Input)
  : result Game :=
  g0 <- module_init f rand0 ;;
  main rand1 inputs g0.

(** The states the running game can be in between two events. *)
Definition reachable (g : Game) : Prop :=
  exists f rand0 rand1 inputs, program f rand0 rand1 inputs = Ret g.

(* ===================================================================== *)
(** * Notions used in the statements *)
(* ===================================================================== *)

(** ** Tray layout *)

(** What [layout_tray] never writes of a piece: its home index and its placed
    flag. *)
Definition key (p : Piece.t) : nat * bool := (Piece.index p, Piece.placed p).

(** The unplaced pieces of the tray, in display order. *)
Definition is_unplaced (ps : list Piece.t) (i : nat) : Prop :=
  Piece.placed <$> ps !! i = Some false.

Global Instance is_unplaced_dec ps i : Decision (is_unplaced ps i).
Proof. unfold is_unplaced. apply _. Defined.

Definition unplaced_refs (ps : list Piece.t) (tray : list nat) : list nat :=
  filter (is_unplaced ps) tray.

(** The piece a layout step writes. *)
Definition laid (piece : Piece.t) (tile : Surface) (i : nat) : Piece.t :=
  {| Piece.index := Piece.index piece;
     Piece.image := scale tile (tile_w, tile_w);
     Piece.placed := Piece.placed piece;
     Piece.rect := tray_cell i |}.

(** ** Well-formed states and the session invariant *)

Definition board : list Slot.t := Slot.init <$> seq 0 (COLS * ROWS).

(** The parts of the state the game never changes after start-up. *)
Record well_formed (g : Game) : Prop := {
  wf_tiles : length (map_tiles g) = COLS * ROWS;
  wf_tile_size :
    Forall (fun t => surf_w t = TILE_SIZE /\ surf_h t = TILE_SIZE) (map_tiles g);
  wf_pieces : Piece.index <$> pieces g = seq 0 (COLS * ROWS);
  wf_slots : reset_slot <$> slots g = board;
  wf_tray : shuffled_tray g ≡ₚ seq 0 (COLS * ROWS)
}.

(** Slots and pieces agree, and the held reference points at an unplaced
    piece. *)
Record consistent (g : Game) : Prop := {
  con_wf : well_formed g;
  con_fill : Slot.filled <$> slots g = Piece.placed <$> pieces g;
  con_held : forall h, held_piece g = Some h -> is_unplaced (pieces g) h
}.

Record invariant (g : Game) : Prop := {
  inv_consistent : consistent g;
  inv_complete : complete g = forallb Slot.filled (slots g)
}.

(** ** Pick-up and drop *)

(** The test of the pick-up loop on the piece at position [i]. *)
Definition hits (ps : list Piece.t) (x y : Z) (i : nat) : bool :=
  match ps !! i with
  | Some p => negb (Piece.placed p) && collidepoint (Piece.rect p) x y
  | None => false
  end.

Definition picked (piece : Piece.t) (tile : Surface) : Piece.t :=
  {| Piece.index := Piece.index piece;
     Piece.image := scale tile (TILE_SIZE, TILE_SIZE);
     Piece.placed := Piece.placed piece;
     Piece.rect := mkRect (rx (Piece.rect piece)) (ry (Piece.rect piece))
                          TILE_SIZE TILE_SIZE |}.

Definition pick (g : Game) (x y : Z) (i : nat) (piece : Piece.t) (tile : Surface) : Game :=
  set_held (set_pieces g (<[i := picked piece tile]> (pieces g)))
           (Some i) (x - rx (Piece.rect piece), y - ry (Piece.rect piece))%Z.

(** The test of the drop loop on a slot. *)
Definition accepts (slot : Slot.t) (x y : Z) : bool :=
  negb (Slot.filled slot) && collidepoint (Slot.rect slot) x y.

(** The slot at which the drop loop stops, with its position. *)
Fixpoint first_target (x y : Z) (n : nat) (rest : list Slot.t) : option (nat * Slot.t) :=
  match rest with
  | [] => None
  | slot :: rest' =>
      if accepts slot x y then Some (n, slot) else first_target x y (S n) rest'
  end.

Definition fill (slot : Slot.t) : Slot.t :=
  {| Slot.index := Slot.index slot; Slot.rect := Slot.rect slot; Slot.filled := true |}.

Definition snapped (held : Piece.t) (tile : Surface) (slot : Slot.t) : Piece.t :=
  {| Piece.index := Piece.index held;
     Piece.image := scale tile (TILE_SIZE, TILE_SIZE);
     Piece.placed := true;
     Piece.rect := Slot.rect slot |}.

(** What the loop body does at the slot it stops at. *)
Definition drop (g : Game) (h n : nat) (slot : Slot.t) : result Game :=
  held <- idx (pieces g) h ;;
  if Slot.index slot =? Piece.index held then
    tile <- idx (map_tiles g) (Piece.index held) ;;
    Ret (set_pieces (set_slots g (<[n := fill slot]> (slots g)))
                    (<[h := snapped held tile slot]> (pieces g)))
  else Ret g.

(** The outcome of the drop loop: the held piece [h] goes into slot [h] when
    that slot is under the pointer, and nothing is written otherwise. *)
Definition dropped (g : Game) (h : nat) (slot : Slot.t) (held : Piece.t) (tile : Surface)
  : Game :=
  set_pieces (set_slots g (<[h := fill slot]> (slots g)))
             (<[h := snapped held tile slot]> (pieces g)).

(** Lines 348-353, after the drop loop. *)
Definition after_drop (g1 : Game) : result Game :=
  g2 <- layout_tray (set_held g1 None (drag_offset g1)) ;;
  Ret (if forallb Slot.filled (slots g2) then set_win g2 true 0 else g2).

(** ** What [draw] paints *)

Definition rect_at (ps : list Piece.t) (i : nat) : Rect :=
  from_option Piece.rect (mkRect 0 0 0 0) (ps !! i).

(** The pieces the tray loop paints: unplaced, and not the held one. *)
Definition shown (ps : list Piece.t) (held : option nat) (i : nat) : Prop :=
  is_unplaced ps i /\ held ≠ Some i.

Global Instance shown_dec ps held i : Decision (shown ps held i).
Proof. unfold shown. apply _. Defined.

Definition is_slot_blit (b : Blit) : Prop :=
  match b with
  | SlotBlit _ _ => True
  | PieceBlit _ _ _ => False
  end.

(** ** Restart, start-up and frame end *)

(** The state [new_game] hands to [layout_tray]. *)
Definition reset_state (rand : nat -> nat) (g : Game) (ps1 : list Piece.t) : Game :=
  {| map_tiles := map_tiles g; slots := reset_slot <$> slots g; pieces := ps1;
     shuffled_tray := shuffle rand (shuffled_tray g); held_piece := None;
     drag_offset := drag_offset g; complete := false; win_timer := 0;
     running := true |}.

(** The tiles and pieces the start-up builds from a readable picture. *)
Definition sliced_tiles : list Surface :=
  flat_map (fun row => (fun col => slice_tile TILE_SIZE row col) <$> seq 0 COLS) (seq 0 ROWS).

Definition start_pieces : list Piece.t :=
  (fun i => {| Piece.index := i;
               Piece.image := slice_tile TILE_SIZE (i / COLS) (i mod COLS);
               Piece.placed := false;
               Piece.rect := mkRect 0 0 TILE_SIZE TILE_SIZE |}) <$> seq 0 (COLS * ROWS).

Definition start_state (rand : nat -> nat) : Game :=
  {| map_tiles := sliced_tiles; slots := board; pieces := start_pieces;
     shuffled_tray := shuffle rand (seq 0 (length start_pieces)); held_piece := None;
     drag_offset := (0, 0)%Z; complete := false; win_timer := 0; running := true |}.

(** The first half of [end_frame]: the win timer. *)
Definition advance (ms_elapsed : Z) (g : Game) : Game :=
  if complete g then set_win g true (win_timer g + ms_elapsed) else g.

(** ** Held, placed and painted pieces *)

(** Piece [i] is the one being dragged. *)
Definition held (g : Game) (i : nat) : bool := bool_decide (held_piece g = Some i).

Definition blit_piece (b : Blit) : nat :=
  match b with
  | SlotBlit piece _ => piece
  | PieceBlit piece _ _ => piece
  end.

(** Home indices of the placed pieces, and of the held piece if there is
    one. *)
Definition placed_pieces (g : Game) : list nat :=
  Piece.index <$> filter (fun p => Piece.placed p = true) (pieces g).

Definition held_pieces (g : Game) : list nat :=
  match held_piece g with
  | Some h => from_option (fun p => [Piece.index p]) [] (pieces g !! h)
  | None => []
  end.

(** The state a primary-button release leaves, given what the drop loop
    did. *)
Definition released (g1 : Game) (ps' : list Piece.t) : Game :=
  let g2 := set_pieces (set_held g1 None (drag_offset g1)) ps' in
  if forallb Slot.filled (slots g1) then set_win g2 true 0 else g2.

Definition blit_dest (b : Blit) : Rect :=
  match b with
  | SlotBlit _ dest => dest
  | PieceBlit _ dest _ => dest
  end.

(** The last thing painted over the point [(x, y)], and the piece it is when
    it is a piece outside the board. *)
Definition topmost (blits : list Blit) (x y : Z) : option Blit :=
  last (filter (fun b => collidepoint (blit_dest b) x y = true) blits).

Definition loose_piece (b : option Blit) : option nat :=
  match b with
  | Some (PieceBlit i _ _) => Some i
  | _ => None
  end.

(** ** Example runs *)

(** A game on a readable picture: start-up leaves the display order
    [1..8, 0], the first game keeps it (its draws swap nothing). *)
Definition demo_picture : ImageFile := Readable 1024 768.
Definition demo_rand0 (i : nat) : nat := 0.
Definition demo_rand1 (i : nat) : nat := i.

(** The centre of board slot [k]. *)
Definition slot_centre (k : nat) : Z * Z :=
  (BOARD_X + Z.of_nat (k mod COLS) * TILE_SIZE + TILE_SIZE / 2,
   BOARD_Y + Z.of_nat (k / COLS) * TILE_SIZE + TILE_SIZE / 2)%Z.

(** Pick up whatever lies in the first tray cell and drop it on slot [k]. *)
Definition place (k : nat) : list Input :=
  [Ev (MOUSEBUTTONDOWN (30, 90)%Z 1); Ev (MOUSEBUTTONUP (slot_centre k) 1)].

Definition unwrap (r : result Game) : Game :=
  match r with
  | Ret g => g
  | Raise _ => start_state demo_rand0
  end.

(** Three pieces placed, then a fourth picked up and dragged. *)
Definition demo_inputs : list Input :=
  place 1 ++ place 2 ++ place 3
  ++ [Ev (MOUSEBUTTONDOWN (180, 100)%Z 1); Ev (MOUSEMOTION (400, 300)%Z)].

Definition demo_game : Game :=
  Eval vm_compute in unwrap (program demo_picture demo_rand0 demo_rand1 demo_inputs).

(** All nine pieces placed, in display order. *)
Definition solved_inputs : list Input :=
  flat_map place [1; 2; 3; 4; 5; 6; 7; 8; 0] ++ [Tick 16 demo_rand1].

Definition solved_game : Game :=
  Eval vm_compute in unwrap (program demo_picture demo_rand0 demo_rand1 solved_inputs).

(** One pick-up in a fresh game: piece 1, in the first tray cell, is held;
    grown to full tile size, its rectangle reaches 6 pixels into the cell of
    piece 2 to its right. *)
Definition held_inputs : list Input := [Ev (MOUSEBUTTONDOWN (30, 90)%Z 1)].

Definition held_game : Game :=
  Eval vm_compute in unwrap (program demo_picture demo_rand0 demo_rand1 held_inputs).



(** ** Labels, the win overlay, tidy trays *)

(** Line 228: the number shown in the tray label. *)
Definition remaining (g : Game) : nat :=
  length (filter (fun piece => Piece.placed piece = false) (pieces g)).

(** Lines 266-272: the opacity of the win overlay ([int(alpha)] on an
    integer is that integer), and whether the message is painted over it. *)
Definition overlay_alpha (win_timer : Z) : Z := Z.min 200 (win_timer / 3).

Definition message_shown (win_timer : Z) : bool := (300 <? win_timer)%Z.

(** What [draw] adds for the win: nothing unless [complete]. *)
Definition win_overlay (g : Game) : option (Z * bool) :=
  if complete g then Some (overlay_alpha (win_timer g), message_shown (win_timer g))
  else None.

(** Every unplaced piece sits in the tray cell of its rank among the unplaced
    pieces of the display order. *)
Definition tidy (g : Game) : Prop :=
  forall i r,
    unplaced_refs (pieces g) (shuffled_tray g) !! i = Some r ->
    Piece.rect <$> pieces g !! r = Some (tray_cell i).

(** A point of the window. *)
Definition on_screen (x y : Z) : Prop :=
  (0 <= x < SCREEN_W)%Z /\ (0 <= y < SCREEN_H)%Z.

(** [clock.tick] never reports a negative duration. *)
Definition tick_ok (i : Input) : Prop :=
  match i with
  | Tick ms_elapsed _ => (0 <= ms_elapsed)%Z
  | Ev _ => True
  end.

(** The piece [pointer_motion] writes for the held piece. *)
Definition moved (held : Piece.t) (pos offset : Z * Z) : Piece.t :=
  {| Piece.index := Piece.index held;
     Piece.image := Piece.image held;
     Piece.placed := Piece.placed held;
     Piece.rect := mkRect (fst pos - fst offset) (snd pos - snd offset)
                          (rw (Piece.rect held)) (rh (Piece.rect held)) |}.

(** The sizes a piece rectangle takes: a tray cell or a full tile. *)
Definition piece_sized (p : Piece.t) : Prop :=
  rw (Piece.rect p) = rh (Piece.rect p)
  /\ (rw (Piece.rect p) = tile_w \/ rw (Piece.rect p) = TILE_SIZE).

(** One piece placed, nothing held. *)
Definition one_placed_inputs : list Input := place 1.

Definition one_placed_game : Game :=
  Eval vm_compute in
    unwrap (program demo_picture demo_rand0 demo_rand1 one_placed_inputs).

(** While a piece is held it is a full tile in size and the recorded offset
    points inside it; every piece rectangle is a tray cell or a full tile in
    size. *)
Definition drag_ok (g : Game) : Prop :=
  Forall piece_sized (pieces g)
  /\ forall h, held_piece g = Some h ->
               exists p, pieces g !! h = Some p
                         /\ rw (Piece.rect p) = TILE_SIZE /\ rh (Piece.rect p) = TILE_SIZE
                         /\ (0 <= fst (drag_offset g) < TILE_SIZE)%Z
                         /\ (0 <= snd (drag_offset g) < TILE_SIZE)%Z.

(** The two loops of [layout_tray], as a function of what they read. *)
Definition layout_pieces (tiles : list Surface) (ps : list Piece.t) (tray : list nat)
  : result (list Piece.t) :=
  unplaced <- unplaced_of ps tray ;;
  layout_loop tiles 0 unplaced ps.

(** A drag: button down at [start], the pointer moved along [path], button
    up at [stop]. *)
Definition drag (start : Z * Z) (path : list (Z * Z)) (stop : Z * Z) : list Input :=
  Ev (MOUSEBUTTONDOWN start 1)
  :: ((fun pos => Ev (MOUSEMOTION pos)) <$> path)
  ++ [Ev (MOUSEBUTTONUP stop 1)].

(** Inputs other than a window close and the restart key. *)
Definition inert (i : Input) : Prop :=
  match i with
  | Ev QUIT => False
  | Ev (KEYDOWN key) => key ≠ K_r
  | _ => True
  end.

(** The time the frames of a trace took. *)
Fixpoint elapsed (inputs : list Input) : Z :=
  match inputs with
  | [] => 0
  | Ev _ :: inputs' => elapsed inputs'
  | Tick ms_elapsed _ :: inputs' => ms_elapsed + elapsed inputs'
  end.

(** ** Inputs the window system and the clock deliver *)

(** Pointer coordinates as the window system reports them: signed 16-bit
    values, whether or not the pointer is inside the 960 by 640 window. *)
Definition pointer_ok (pos : Z * Z) : Prop :=
  (- 2 ^ 15 <= fst pos < 2 ^ 15)%Z /\ (- 2 ^ 15 <= snd pos < 2 ^ 15)%Z.

Global Instance pointer_ok_dec pos : Decision (pointer_ok pos).
Proof. unfold pointer_ok. apply _. Defined.

(** An input the running game can receive: pointer events carry such
    coordinates, and [clock.tick] never reports a negative duration. *)
Definition input_ok (i : Input) : Prop :=
  match i with
  | Tick ms_elapsed _ => (0 <= ms_elapsed)%Z
  | Ev (MOUSEBUTTONDOWN pos _) => pointer_ok pos
  | Ev (MOUSEMOTION pos) => pointer_ok pos
  | Ev (MOUSEBUTTONUP pos _) => pointer_ok pos
  | Ev _ => True
  end.

Global Instance input_ok_dec i : Decision (input_ok i).
Proof. destruct i as [[]|]; simpl; apply _. Defined.

(** A state the game reaches on such inputs. *)
Definition played (g : Game) : Prop :=
  exists f rand0 rand1 inputs,
    Forall input_ok inputs /\ program f rand0 rand1 inputs = Ret g.


(** The example runs are made of such inputs. *)
Ltac played_by inputs :=
  exists demo_picture, demo_rand0, demo_rand1, inputs;
  split; [apply (bool_decide_unpack _); vm_compute; exact I | reflexivity].

(* ===================================================================== *)
(** * Properties *)
(* ===================================================================== *)

(** ** The error monad *)

Lemma bind_Ret {A B : Type} (m : result A) (k : A -> result B) (b : B) :
  bind m k = Ret b <-> exists a, m = Ret a /\ k a = Ret b.
Proof.
  destruct m as [a|e]; simpl; split.
  - intros H. by exists a.
  - by intros (a' & [= <-] & H).
  - discriminate.
  - by intros (a' & [=] & _).
Qed.

Lemma idx_Ret {A : Type} (l : list A) (i : nat) (a : A) :
  idx l i = Ret a <-> l !! i = Some a.
Proof. unfold idx. destruct (l !! i); split; congruence. Qed.

Lemma idx_lt {A : Type} (l : list A) (i : nat) :
  i < length l -> exists a, l !! i = Some a /\ idx l i = Ret a.
Proof.
  intros [a Ha]%lookup_lt_is_Some_2. exists a. split; [done|]. by apply idx_Ret.
Qed.

(** Take apart the successful runs among the hypotheses. *)
Ltac inv_ret :=
  repeat match goal with
  | H : bind _ _ = Ret _ |- _ =>
      let a := fresh "a" in let Ha := fresh "Ha" in
      apply bind_Ret in H as (a & Ha & H)
  | H : idx _ _ = Ret _ |- _ => apply idx_Ret in H
  | H : Ret _ = Ret _ |- _ => injection H as H
  | H : Raise _ = Ret _ |- _ => discriminate H
  end.

Lemma for_each_Ret {A B : Type} (f : A -> result B) (l : list A) (bs : list B) :
  for_each f l = Ret bs <-> Forall2 (fun a b => f a = Ret b) l bs.
Proof.
  revert bs. induction l as [|a l IH]; intros bs; simpl.
  - split.
    + intros [= <-]. constructor.
    + intros ->%Forall2_nil_inv_l. done.
  - rewrite bind_Ret. split.
    + intros (b & Hb & H). apply bind_Ret in H as (bs' & Hbs & [= <-]).
      constructor; [done|]. by apply IH.
    + intros (b & bs' & Hb & Hbs & ->)%Forall2_cons_inv_l.
      exists b. split; [done|]. apply bind_Ret. exists bs'. split; [|done]. by apply IH.
Qed.

(** ** What [layout_tray] leaves alone: home index and placed flag *)

Lemma key_lookup (ps qs : list Piece.t) (i : nat) (p : Piece.t) :
  key <$> ps = key <$> qs -> ps !! i = Some p ->
  exists q, qs !! i = Some q /\ Piece.index q = Piece.index p
            /\ Piece.placed q = Piece.placed p.
Proof.
  intros Hk Hp.
  assert ((key <$> qs) !! i = Some (key p)) as Hq.
  { rewrite <- Hk, list_lookup_fmap, Hp. done. }
  rewrite list_lookup_fmap in Hq.
  destruct (qs !! i) as [q|]; [|done].
  exists q. injection Hq as Hq1 Hq2. done.
Qed.

Lemma key_insert (ps : list Piece.t) (i : nat) (p p' : Piece.t) :
  ps !! i = Some p -> key p' = key p -> key <$> <[i := p']> ps = key <$> ps.
Proof.
  intros Hp Hk. rewrite list_fmap_insert, Hk.
  apply list_insert_id. by rewrite list_lookup_fmap, Hp.
Qed.

Lemma unplaced_of_Ret (ps : list Piece.t) (tray l : list nat) :
  unplaced_of ps tray = Ret l <->
  Forall (fun i => i < length ps) tray /\ l = unplaced_refs ps tray.
Proof.
  revert l. induction tray as [|i tray IH]; intros l; simpl.
  - split; [intros [= <-]; by split|]. by intros [_ ->].
  - rewrite bind_Ret. unfold unplaced_refs. rewrite filter_cons. split.
    + intros (p & Hp%idx_Ret & H). apply bind_Ret in H as (rest & Hrest & [= <-]).
      apply IH in Hrest as [Hall ->]. split.
      * constructor; [by eapply lookup_lt_Some|done].
      * case_decide as Hd; unfold is_unplaced in Hd; rewrite Hp in Hd;
          simpl in Hd; by destruct (Piece.placed p).
    + intros [Hall ->]. apply Forall_cons_1 in Hall as [Hi Hall].
      destruct (idx_lt ps i Hi) as (p & Hp & Hidx). exists p. split; [done|].
      apply bind_Ret. exists (unplaced_refs ps tray). split; [by apply IH|].
      case_decide as Hd; unfold is_unplaced in Hd; rewrite Hp in Hd;
        simpl in Hd; by destruct (Piece.placed p).
Qed.

Lemma is_unplaced_key (ps qs : list Piece.t) (i : nat) :
  key <$> ps = key <$> qs -> is_unplaced ps i <-> is_unplaced qs i.
Proof.
  intros Hk. unfold is_unplaced.
  assert (forall l : list Piece.t, Piece.placed <$> l !! i = snd <$> (key <$> l) !! i) as E.
  { intros l. rewrite list_lookup_fmap. by destruct (l !! i). }
  by rewrite !E, Hk.
Qed.

Lemma unplaced_refs_key (ps qs : list Piece.t) (tray : list nat) :
  key <$> ps = key <$> qs -> unplaced_refs ps tray = unplaced_refs qs tray.
Proof.
  intros Hk. unfold unplaced_refs. apply list_filter_iff.
  intros i. by apply is_unplaced_key.
Qed.

Lemma layout_loop_keeps tiles i unplaced ps ps' :
  layout_loop tiles i unplaced ps = Ret ps' ->
  key <$> ps' = key <$> ps /\ (forall r, r ∉ unplaced -> ps' !! r = ps !! r).
Proof.
  revert i ps. induction unplaced as [|r rest IH]; intros i ps H; simpl in H.
  - by injection H as <-.
  - inv_ret. apply IH in H as [Hk Hout]. split.
    + rewrite Hk. by eapply key_insert.
    + intros r' [Hne Hr']%not_elem_of_cons.
      rewrite Hout by done. by apply list_lookup_insert_ne.
Qed.

Lemma layout_loop_total tiles i unplaced ps :
  Forall (fun r => r < length ps) unplaced ->
  Forall (fun p => Piece.index p < length tiles) ps ->
  exists ps', layout_loop tiles i unplaced ps = Ret ps'.
Proof.
  revert i ps. induction unplaced as [|r rest IH]; intros i ps Hin Hix; simpl.
  - by exists ps.
  - apply Forall_cons_1 in Hin as [Hr Hin].
    destruct (idx_lt ps r Hr) as (p & Hp & ->). simpl.
    assert (Piece.index p < length tiles) as Ht.
    { by apply (Forall_lookup_1 _ _ _ _ Hix Hp). }
    destruct (idx_lt tiles _ Ht) as (tile & _ & ->). simpl.
    apply IH.
    + by rewrite length_insert.
    + apply Forall_insert; done.
Qed.

(** Two piece lists that agree on the keys, and entirely on the pieces the
    loop does not visit, come out of it identical. *)
Lemma layout_loop_agree tiles i unplaced ps qs ps' :
  key <$> ps = key <$> qs ->
  (forall r, r ∉ unplaced -> ps !! r = qs !! r) ->
  layout_loop tiles i unplaced ps = Ret ps' ->
  layout_loop tiles i unplaced qs = Ret ps'.
Proof.
  revert i ps qs. induction unplaced as [|r rest IH]; intros i ps qs Hk Hout H; simpl in *.
  - injection H as <-. f_equal. symmetry. apply list_eq. intros r.
    apply Hout, not_elem_of_nil.
  - inv_ret. rename a into p, a0 into tile.
    destruct (key_lookup ps qs r p Hk Ha) as (q & Hq & Hqi & Hqp).
    apply bind_Ret. exists q. split; [by apply idx_Ret|].
    apply bind_Ret. exists tile. split; [apply idx_Ret; by rewrite Hqi|].
    rewrite Hqi, Hqp. eapply IH; [| |exact H].
    + by rewrite !list_fmap_insert, Hk.
    + intros r' Hr'. destruct (decide (r = r')) as [<-|Hne].
      * rewrite !list_lookup_insert_eq; [done| |]; by eapply lookup_lt_Some.
      * rewrite !list_lookup_insert_ne by done.
        apply Hout. by apply not_elem_of_cons.
Qed.

(** With no reference repeated, the [k]-th visited piece ends in cell
    [i + k]. *)
Lemma layout_loop_cell tiles i unplaced ps ps' k r :
  NoDup unplaced ->
  layout_loop tiles i unplaced ps = Ret ps' ->
  unplaced !! k = Some r ->
  exists p tile, ps !! r = Some p /\ tiles !! Piece.index p = Some tile
                 /\ ps' !! r = Some (laid p tile (i + k)).
Proof.
  revert i ps k. induction unplaced as [|r0 rest IH]; intros i ps k Hnd H Hk; [done|].
  apply NoDup_cons in Hnd as [Hr0 Hnd]. simpl in H. inv_ret.
  rename a into p, a0 into tile. destruct k as [|k]; simpl in Hk.
  - injection Hk as <-. exists p, tile. split; [done|]. split; [done|].
    apply layout_loop_keeps in H as [_ Hout]. rewrite Hout by done.
    rewrite Nat.add_0_r. apply list_lookup_insert_eq. by eapply lookup_lt_Some.
  - assert (r ≠ r0) as Hne.
    { intros ->. apply Hr0. by eapply list_elem_of_lookup_2. }
    destruct (IH _ _ _ Hnd H Hk) as (p' & tile' & Hp' & Htile' & Hps').
    rewrite list_lookup_insert_ne in Hp' by done.
    exists p', tile'. replace (i + S k) with (S i + k) by lia. done.
Qed.

Lemma layout_tray_again (g g' : Game) :
  layout_tray g = Ret g' -> layout_tray g' = Ret g'.
Proof.
  unfold layout_tray. intros H. inv_ret. subst g'. rename a into l, a0 into ps'.
  apply unplaced_of_Ret in Ha as [Hin ->].
  destruct (layout_loop_keeps _ _ _ _ _ Ha0) as [Hk Hout].
  apply bind_Ret. exists (unplaced_refs (pieces g) (shuffled_tray g)). split.
  - apply unplaced_of_Ret. simpl. split.
    + assert (length ps' = length (pieces g)) as ->; [|done].
      by rewrite <- (length_fmap key ps'), Hk, length_fmap.
    + by apply unplaced_refs_key.
  - apply bind_Ret. exists ps'. split; [|done]. simpl.
    eapply layout_loop_agree; [| |exact Ha0]; [done|].
    intros r Hr. symmetry. by apply Hout.
Qed.

(** ** [random.shuffle] permutes *)


Lemma swap_Permutation (x : list nat) (i j : nat) : swap x i j ≡ₚ x.
Proof.
  unfold swap. destruct (x !! j) as [xj|] eqn:Hj; [|done].
  destruct (x !! i) as [xi|] eqn:Hi; [|done].
  by apply Permutation_insert_swap.
Qed.

Lemma shuffle_loop_Permutation rand i (x : list nat) : shuffle_loop rand i x ≡ₚ x.
Proof.
  revert x. induction i as [|i IH]; intros x; simpl; [done|].
  rewrite IH. apply swap_Permutation.
Qed.

Lemma shuffle_Permutation rand (x : list nat) : shuffle rand x ≡ₚ x.
Proof. apply shuffle_loop_Permutation. Qed.

(** ** Every order can come out of [random.shuffle] *)






(** ** Well-formed states and the session invariant *)

Lemma index_of_key (ps : list Piece.t) : Piece.index <$> ps = fst <$> (key <$> ps).
Proof. rewrite <- list_fmap_compose. done. Qed.

Lemma placed_of_key (ps : list Piece.t) : Piece.placed <$> ps = snd <$> (key <$> ps).
Proof. rewrite <- list_fmap_compose. done. Qed.

Section WellFormed.

Variable g : Game.
Hypothesis Hwf : well_formed g.

Lemma wf_length_pieces : length (pieces g) = COLS * ROWS.
Proof.
  rewrite <- (length_fmap Piece.index), (wf_pieces g Hwf). apply length_seq.
Qed.

Lemma wf_length_slots : length (slots g) = COLS * ROWS.
Proof.
  rewrite <- (length_fmap reset_slot), (wf_slots g Hwf).
  unfold board. rewrite length_fmap. apply length_seq.
Qed.

Lemma wf_piece_index i p : pieces g !! i = Some p -> Piece.index p = i.
Proof.
  intros Hp.
  assert ((Piece.index <$> pieces g) !! i = Some (Piece.index p)) as H.
  { by rewrite list_lookup_fmap, Hp. }
  rewrite (wf_pieces g Hwf) in H. apply lookup_seq in H as [-> _]. done.
Qed.

Lemma wf_slot i s :
  slots g !! i = Some s ->
  i < COLS * ROWS /\ Slot.index s = i /\ Slot.rect s = Slot.rect (Slot.init i).
Proof.
  intros Hs.
  assert ((reset_slot <$> slots g) !! i = Some (reset_slot s)) as H.
  { by rewrite list_lookup_fmap, Hs. }
  rewrite (wf_slots g Hwf) in H. unfold board in H.
  rewrite list_lookup_fmap in H.
  destruct (seq 0 (COLS * ROWS) !! i) as [i'|] eqn:Hi; [|done].
  apply lookup_seq in Hi as [-> Hlt]. simpl in H. injection H as H.
  split; [done|]. rewrite <- H. done.
Qed.

Lemma wf_tray_in_range : Forall (fun i => i < length (pieces g)) (shuffled_tray g).
Proof.
  rewrite wf_length_pieces. apply Forall_forall. intros i Hi.
  rewrite (wf_tray g Hwf) in Hi. by apply elem_of_seq in Hi as [_ Hi].
Qed.

Lemma wf_tray_NoDup : NoDup (shuffled_tray g).
Proof. rewrite (wf_tray g Hwf). apply NoDup_seq. Qed.

Lemma wf_tray_elem i : i < COLS * ROWS -> i ∈ shuffled_tray g.
Proof. intros Hi. rewrite (wf_tray g Hwf). apply elem_of_seq. lia. Qed.

Lemma wf_tiles_in_range :
  Forall (fun p => Piece.index p < length (map_tiles g)) (pieces g).
Proof.
  rewrite (wf_tiles g Hwf). apply Forall_lookup. intros i p Hp.
  rewrite (wf_piece_index i p Hp). rewrite <- wf_length_pieces.
  by eapply lookup_lt_Some.
Qed.

(** On a well-formed state [layout_tray] returns, and changes nothing but
    rectangles and images. *)
Lemma wf_layout_tray :
  exists ps', layout_tray g = Ret (set_pieces g ps') /\ key <$> ps' = key <$> pieces g.
Proof.
  destruct (layout_loop_total (map_tiles g) 0
              (unplaced_refs (pieces g) (shuffled_tray g)) (pieces g)) as [ps' Hps'].
  - unfold unplaced_refs. apply Forall_forall. intros i [_ Hi]%list_elem_of_filter.
    revert i Hi. apply Forall_forall, wf_tray_in_range.
  - apply wf_tiles_in_range.
  - exists ps'. split; [|by eapply layout_loop_keeps].
    unfold layout_tray. apply bind_Ret. eexists. split.
    + apply unplaced_of_Ret. split; [apply wf_tray_in_range|done].
    + apply bind_Ret. by exists ps'.
Qed.

End WellFormed.

Lemma wf_set_pieces g ps' :
  well_formed g -> key <$> ps' = key <$> pieces g -> well_formed (set_pieces g ps').
Proof.
  intros [? ? Hp ? ?] Hk. split; simpl; try done.
  by rewrite index_of_key, Hk, <- index_of_key.
Qed.

Lemma consistent_set_pieces g ps' :
  consistent g -> key <$> ps' = key <$> pieces g -> consistent (set_pieces g ps').
Proof.
  intros [Hwf Hfill Hheld] Hk. split; simpl.
  - by apply wf_set_pieces.
  - by rewrite (placed_of_key ps'), Hk, <- placed_of_key.
  - intros h Hh. apply (is_unplaced_key ps' (pieces g)); auto.
Qed.

Lemma invariant_set_pieces g ps' :
  invariant g -> key <$> ps' = key <$> pieces g -> invariant (set_pieces g ps').
Proof.
  intros [Hc Hcomp] Hk. split; [by apply consistent_set_pieces|done].
Qed.

Lemma is_unplaced_lookup ps h :
  is_unplaced ps h <-> exists p, ps !! h = Some p /\ Piece.placed p = false.
Proof.
  unfold is_unplaced. destruct (ps !! h) as [p|]; simpl; split.
  - intros [= H]. by exists p.
  - by intros (p' & [= <-] & ->).
  - done.
  - by intros (p' & [=] & _).
Qed.

(** ** The board: slot rectangles do not overlap *)

Lemma board_disjoint (i j : nat) (x y : Z) :
  collidepoint (Slot.rect (Slot.init i)) x y = true ->
  collidepoint (Slot.rect (Slot.init j)) x y = true ->
  i = j.
Proof.
  unfold collidepoint, Slot.init. cbn [Slot.rect rx ry rw rh].
  pose proof (Nat.div_mod_eq i COLS) as Ei. pose proof (Nat.div_mod_eq j COLS) as Ej.
  generalize dependent (i mod COLS). generalize dependent (i / COLS).
  generalize dependent (j mod COLS). generalize dependent (j / COLS).
  intros rj cj Ej ri ci Ei.
  unfold BOARD_X, TILE_SIZE, COLS in *.
  generalize BOARD_Y. intros by0.
  rewrite !andb_true_iff, !Z.leb_le, !Z.ltb_lt. lia.
Qed.

(** ** Picking a piece up *)

(** The loop stops at the first position of [order] that passes the test. *)
Lemma pick_loop_spec g x y order :
  Forall (fun i => i < length (pieces g)) order ->
  Forall (fun p => Piece.index p < length (map_tiles g)) (pieces g) ->
  match head (filter (fun i => hits (pieces g) x y i = true) order) with
  | None => pick_loop g x y order = Ret g
  | Some i =>
      exists p tile, pieces g !! i = Some p /\ map_tiles g !! Piece.index p = Some tile
                     /\ Piece.placed p = false
                     /\ collidepoint (Piece.rect p) x y = true
                     /\ pick_loop g x y order = Ret (pick g x y i p tile)
  end.
Proof.
  intros Hin Hix. induction order as [|i order IH]; simpl; [done|].
  apply Forall_cons_1 in Hin as [Hi Hin]. specialize (IH Hin).
  destruct (idx_lt _ _ Hi) as (p & Hp & ->). simpl.
  assert (hits (pieces g) x y i
          = negb (Piece.placed p) && collidepoint (Piece.rect p) x y) as Hh.
  { unfold hits. by rewrite Hp. }
  destruct (negb (Piece.placed p) && collidepoint (Piece.rect p) x y) eqn:Hhit.
  - rewrite filter_cons_True by done. simpl.
    assert (Piece.index p < length (map_tiles g)) as Ht.
    { by apply (Forall_lookup_1 _ _ _ _ Hix Hp). }
    destruct (idx_lt _ _ Ht) as (tile & Htile & ->). simpl.
    apply andb_true_iff in Hhit as [Hpl%negb_true_iff Hcol].
    exists p, tile. done.
  - rewrite filter_cons_False by congruence. exact IH.
Qed.

(** ** Dropping the held piece *)

Lemma drop_loop_spec g h x y n rest :
  drop_loop g h x y n rest =
  match first_target x y n rest with
  | Some (j, slot) => drop g h j slot
  | None => Ret g
  end.
Proof.
  revert n. induction rest as [|slot rest IH]; intros n; simpl; [done|].
  unfold accepts. destruct (negb (Slot.filled slot) && _); [done|apply IH].
Qed.

Lemma first_target_Some x y n rest j slot :
  first_target x y n rest = Some (j, slot) ->
  n <= j /\ rest !! (j - n) = Some slot /\ accepts slot x y = true.
Proof.
  revert n. induction rest as [|s rest IH]; intros n; simpl; [done|].
  destruct (accepts s x y) eqn:Hs.
  - intros [= <- <-]. by rewrite Nat.sub_diag.
  - intros (Hle & Hl & Ha)%IH. split; [lia|]. split; [|done].
    replace (j - n) with (S (j - S n)) by lia. done.
Qed.

Lemma first_target_None x y n rest :
  first_target x y n rest = None -> Forall (fun s => accepts s x y = false) rest.
Proof.
  revert n. induction rest as [|s rest IH]; intros n; simpl; [constructor|].
  destruct (accepts s x y) eqn:Hs; [done|].
  intros H. constructor; [done|]. by eapply IH.
Qed.

(** Slots do not overlap, so an unfilled slot under the pointer is the one
    the loop stops at. *)
Lemma first_target_unique g x y j slot :
  well_formed g ->
  slots g !! j = Some slot -> accepts slot x y = true ->
  first_target x y 0 (slots g) = Some (j, slot).
Proof.
  intros Hwf Hj Hacc.
  destruct (first_target x y 0 (slots g)) as [[j' slot']|] eqn:Hft.
  - apply first_target_Some in Hft as (_ & Hj' & Hacc').
    rewrite Nat.sub_0_r in Hj'.
    destruct (wf_slot g Hwf _ _ Hj) as (_ & _ & Hr).
    destruct (wf_slot g Hwf _ _ Hj') as (_ & _ & Hr').
    unfold accepts in Hacc, Hacc'.
    apply andb_true_iff in Hacc as [_ Hc]. apply andb_true_iff in Hacc' as [_ Hc'].
    rewrite Hr in Hc. rewrite Hr' in Hc'.
    assert (j' = j) as -> by by eapply board_disjoint.
    congruence.
  - apply first_target_None in Hft.
    pose proof (Forall_lookup_1 _ _ _ _ Hft Hj) as Hno. simpl in Hno. congruence.
Qed.

(** ** Each handler keeps the invariant, and returns *)

Lemma consistent_pick g x y i p tile :
  consistent g -> pieces g !! i = Some p -> Piece.placed p = false ->
  consistent (pick g x y i p tile).
Proof.
  intros Hc Hp Hpl.
  assert (key <$> <[i := picked p tile]> (pieces g) = key <$> pieces g) as Hk.
  { by apply (key_insert _ _ p). }
  destruct (consistent_set_pieces g _ Hc Hk) as [Hwf Hfill _].
  split; [by destruct Hwf|done|]. simpl. intros h [= <-].
  apply (is_unplaced_key _ (pieces g)); [done|].
  apply is_unplaced_lookup. eauto.
Qed.

Lemma pointer_down_spec g x y :
  well_formed g -> complete g = false ->
  match last (filter (fun i => hits (pieces g) x y i = true) (shuffled_tray g)) with
  | None => pointer_down g (x, y) = Ret g
  | Some i =>
      exists p tile, pieces g !! i = Some p /\ map_tiles g !! Piece.index p = Some tile
                     /\ Piece.placed p = false
                     /\ collidepoint (Piece.rect p) x y = true
                     /\ pointer_down g (x, y) = Ret (pick g x y i p tile)
  end.
Proof.
  intros Hwf Hc. unfold pointer_down. rewrite Hc. simpl.
  pose proof (pick_loop_spec g x y (reverse (shuffled_tray g))) as H.
  rewrite filter_reverse, head_reverse in H. apply H.
  - apply Forall_reverse. by apply wf_tray_in_range.
  - by apply wf_tiles_in_range.
Qed.

Lemma pointer_down_invariant g pos :
  invariant g -> exists g', pointer_down g pos = Ret g' /\ invariant g'.
Proof.
  intros Hinv. destruct pos as [x y]. destruct (complete g) eqn:Hc.
  { exists g. unfold pointer_down. by rewrite Hc. }
  pose proof (pointer_down_spec g x y (con_wf _ (inv_consistent _ Hinv)) Hc) as H.
  destruct (last _) as [i|].
  - destruct H as (p & tile & Hp & _ & Hpl & _ & ->). eexists. split; [done|].
    split.
    + apply consistent_pick; [apply Hinv|done..].
    + simpl. apply Hinv.
  - by exists g.
Qed.

Lemma held_in_range g h :
  consistent g -> held_piece g = Some h ->
  exists p, pieces g !! h = Some p /\ Piece.placed p = false /\ Piece.index p = h
            /\ h < COLS * ROWS.
Proof.
  intros Hc Hh. apply (con_held _ Hc), is_unplaced_lookup in Hh as (p & Hp & Hpl).
  exists p. split; [done|]. split; [done|].
  split; [by eapply wf_piece_index; [apply Hc|]|].
  rewrite <- (wf_length_pieces g (con_wf _ Hc)). by eapply lookup_lt_Some.
Qed.

Lemma pointer_motion_invariant g pos :
  invariant g -> exists g', pointer_motion g pos = Ret g' /\ invariant g'.
Proof.
  intros Hinv. unfold pointer_motion. destruct (held_piece g) as [h|] eqn:Hh.
  - destruct (held_in_range g h (inv_consistent _ Hinv) Hh) as (p & Hp & _).
    apply idx_Ret in Hp as Hidx. rewrite Hidx. simpl. eexists. split; [done|].
    apply invariant_set_pieces; [done|]. by apply (key_insert _ _ p).
  - by exists g.
Qed.

Lemma drop_loop_cases g h x y :
  consistent g -> held_piece g = Some h ->
  (exists slot p tile,
      slots g !! h = Some slot /\ accepts slot x y = true
      /\ pieces g !! h = Some p /\ map_tiles g !! h = Some tile
      /\ drop_loop g h x y 0 (slots g) = Ret (dropped g h slot p tile))
  \/ ((forall slot, slots g !! h = Some slot -> accepts slot x y = false)
      /\ drop_loop g h x y 0 (slots g) = Ret g).
Proof.
  intros Hc Hh. pose proof (con_wf _ Hc) as Hwf.
  destruct (held_in_range g h Hc Hh) as (p & Hp & Hpl & Hpi & Hlt).
  rewrite drop_loop_spec.
  destruct (first_target x y 0 (slots g)) as [[j slot]|] eqn:Hft.
  - apply first_target_Some in Hft as (_ & Hj & Hacc). rewrite Nat.sub_0_r in Hj.
    destruct (wf_slot g Hwf _ _ Hj) as (_ & Hsi & _).
    unfold drop. apply idx_Ret in Hp as Hidx. rewrite Hidx. simpl.
    rewrite Hsi, Hpi. destruct (j =? h) eqn:Hjh.
    + apply Nat.eqb_eq in Hjh as ->. left.
      assert (h < length (map_tiles g)) as Ht by by rewrite (wf_tiles g Hwf).
      destruct (idx_lt _ _ Ht) as (tile & Htile & ->). simpl.
      exists slot, p, tile. done.
    + apply Nat.eqb_neq in Hjh. right. split; [|done].
      intros slot' Hslot'. destruct (accepts slot' x y) eqn:Hacc'; [|done].
      pose proof (first_target_unique g x y _ _ Hwf Hj Hacc) as E1.
      pose proof (first_target_unique g x y _ _ Hwf Hslot' Hacc') as E2.
      congruence.
  - right. split; [|done]. intros slot Hslot.
    apply first_target_None in Hft.
    apply (Forall_lookup_1 _ _ _ _ Hft Hslot).
Qed.

Lemma consistent_dropped g h slot p tile :
  consistent g -> slots g !! h = Some slot -> pieces g !! h = Some p ->
  consistent (set_held (dropped g h slot p tile) None (drag_offset g)).
Proof.
  intros [[Ht Hts Hpi Hsl Htr] Hfill Hheld] Hs Hp.
  split; [split|..];
    cbn [dropped set_held set_pieces set_slots map_tiles slots pieces
         shuffled_tray held_piece]; try done.
  - rewrite list_fmap_insert. cbn [snapped Piece.index]. rewrite <- Hpi.
    apply list_insert_id. by rewrite list_lookup_fmap, Hp.
  - rewrite list_fmap_insert. rewrite <- Hsl.
    apply list_insert_id. by rewrite list_lookup_fmap, Hs.
  - rewrite !list_fmap_insert. cbn [snapped fill Piece.placed Slot.filled].
    by rewrite Hfill.
Qed.

Lemma consistent_release g :
  consistent g -> consistent (set_held g None (drag_offset g)).
Proof. intros [Hwf Hfill Hheld]. split; [by destruct Hwf|done|done]. Qed.

Lemma pointer_up_unfold g h pos :
  held_piece g = Some h -> complete g = false ->
  pointer_up g pos =
  (g1 <- drop_loop g h (fst pos) (snd pos) 0 (slots g) ;; after_drop g1).
Proof. intros Hh Hc. unfold pointer_up. by rewrite Hh, Hc. Qed.

Lemma after_drop_invariant g1 :
  consistent (set_held g1 None (drag_offset g1)) -> complete g1 = false ->
  exists ps',
    key <$> ps' = key <$> pieces g1
    /\ layout_tray (set_held g1 None (drag_offset g1))
       = Ret (set_pieces (set_held g1 None (drag_offset g1)) ps')
    /\ after_drop g1
       = Ret (let g2 := set_pieces (set_held g1 None (drag_offset g1)) ps' in
              if forallb Slot.filled (slots g1) then set_win g2 true 0 else g2)
    /\ invariant (let g2 := set_pieces (set_held g1 None (drag_offset g1)) ps' in
                  if forallb Slot.filled (slots g1) then set_win g2 true 0 else g2).
Proof.
  intros Hc Hcomp.
  destruct (wf_layout_tray _ (con_wf _ Hc)) as (ps' & Hlay & Hk).
  exists ps'. split; [done|]. split; [done|]. split.
  - unfold after_drop. rewrite Hlay. done.
  - pose proof (consistent_set_pieces _ ps' Hc Hk) as Hc2. simpl.
    destruct (forallb Slot.filled (slots g1)) eqn:Hall.
    + split; [|done]. destruct Hc2 as [Hwf ? ?]. split; [by destruct Hwf|done|done].
    + split; [done|]. simpl. congruence.
Qed.

Lemma pointer_up_invariant g pos :
  invariant g -> exists g', pointer_up g pos = Ret g' /\ invariant g'.
Proof.
  intros Hinv. pose proof (inv_consistent _ Hinv) as Hc.
  destruct (held_piece g) as [h|] eqn:Hh; [|exists g; unfold pointer_up; by rewrite Hh].
  destruct (complete g) eqn:Hcomp; [exists g; unfold pointer_up; by rewrite Hh, Hcomp|].
  rewrite (pointer_up_unfold g h pos Hh Hcomp).
  destruct (drop_loop_cases g h (fst pos) (snd pos) Hc Hh)
    as [(slot & p & tile & Hs & _ & Hp & _ & ->)|[_ ->]]; simpl.
  - destruct (after_drop_invariant (dropped g h slot p tile)) as (ps' & _ & _ & -> & Hi).
    + exact (consistent_dropped g h slot p tile Hc Hs Hp).
    + done.
    + eauto.
  - destruct (after_drop_invariant g) as (ps' & _ & _ & -> & Hi).
    + by apply consistent_release.
    + done.
    + eauto.
Qed.

Lemma handle_event_invariant g event :
  invariant g -> event ≠ QUIT ->
  exists g', handle_event g event = Ret g' /\ invariant g'.
Proof.
  intros Hinv Hq. destruct event as [|key|pos button|pos|pos button|]; simpl.
  - done.
  - eexists. split; [done|]. destruct (key =? K_r)%Z; [|done].
    destruct Hinv as [[Hwf ? ?] ?]. split; [split|]; try done. by destruct Hwf.
  - destruct (button =? 1)%Z; [by apply pointer_down_invariant|by exists g].
  - by apply pointer_motion_invariant.
  - destruct (button =? 1)%Z; [by apply pointer_up_invariant|by exists g].
  - by exists g.
Qed.

(** ** [draw] returns on the states of a game *)

Lemma draw_tray_spec ps held tray :
  Forall (fun i => i < length ps) tray ->
  draw_tray ps held tray
  = Ret ((fun i => PieceBlit i (rect_at ps i) false) <$> filter (shown ps held) tray).
Proof.
  induction tray as [|i tray IH]; intros Hin; simpl; [done|].
  apply Forall_cons_1 in Hin as [Hi Hin]. rewrite (IH Hin).
  destruct (idx_lt _ _ Hi) as (p & Hp & ->). simpl. f_equal.
  assert (is_unplaced ps i <-> Piece.placed p = false) as Hu.
  { rewrite is_unplaced_lookup. split; [intros (p' & E & ?); congruence|eauto]. }
  assert (rect_at ps i = Piece.rect p) as Hr by (unfold rect_at; by rewrite Hp).
  rewrite filter_cons. unfold shown at 1.
  destruct (Piece.placed p); simpl.
  - rewrite decide_False; [done|]. intros [Hpl _]. by apply Hu in Hpl.
  - case_bool_decide as Hheld; simpl.
    + rewrite decide_False; [done|]. by intros [_ ?].
    + rewrite decide_True; [|split; [by apply Hu|done]]. by rewrite fmap_cons, Hr.
Qed.

Lemma draw_slots_total ps ss :
  Forall (fun s => Slot.index s < length ps) ss ->
  exists blits, draw_slots ps ss = Ret blits /\ Forall is_slot_blit blits.
Proof.
  induction ss as [|s ss IH]; intros Hin; simpl; [by exists []|].
  apply Forall_cons_1 in Hin as [Hs Hin].
  destruct (IH Hin) as (blits & Hb & Hall). destruct (Slot.filled s).
  - destruct (idx_lt _ _ Hs) as (p & _ & ->). simpl. rewrite Hb. simpl.
    eexists. split; [done|]. by constructor.
  - by exists blits.
Qed.

Lemma wf_slot_index_in_range g :
  well_formed g -> Forall (fun s => Slot.index s < length (pieces g)) (slots g).
Proof.
  intros Hwf. apply Forall_lookup. intros i s Hs.
  destruct (wf_slot g Hwf i s Hs) as (Hlt & -> & _). by rewrite wf_length_pieces.
Qed.

Lemma draw_spec g :
  consistent g ->
  exists on_board,
    Forall is_slot_blit on_board
    /\ draw g
       = Ret (on_board
              ++ ((fun i => PieceBlit i (rect_at (pieces g) i) false)
                    <$> filter (shown (pieces g) (held_piece g)) (shuffled_tray g))
              ++ match held_piece g with
                 | Some h => [PieceBlit h (rect_at (pieces g) h) true]
                 | None => []
                 end).
Proof.
  intros Hc. pose proof (con_wf _ Hc) as Hwf.
  destruct (draw_slots_total (pieces g) (slots g)) as (on_board & Hb & Hall).
  { by apply wf_slot_index_in_range. }
  exists on_board. split; [done|]. unfold draw. rewrite Hb. simpl.
  rewrite draw_tray_spec by by apply wf_tray_in_range. simpl.
  destruct (held_piece g) as [h|] eqn:Hh; simpl; [|done].
  destruct (held_in_range g h Hc Hh) as (p & Hp & Hpl & _).
  apply idx_Ret in Hp as Hidx. rewrite Hidx. simpl. rewrite Hpl.
  unfold rect_at. by rewrite Hp.
Qed.

(** ** Restart and start-up establish the invariant *)

Lemma for_each_reset_piece tiles ps :
  Forall (fun p => Piece.index p < length tiles) ps ->
  exists ps1,
    for_each (reset_piece tiles) ps = Ret ps1
    /\ Piece.index <$> ps1 = Piece.index <$> ps
    /\ Piece.rect <$> ps1 = Piece.rect <$> ps
    /\ Forall (fun q => Piece.placed q = false
                        /\ tiles !! Piece.index q = Some (Piece.image q)) ps1.
Proof.
  induction ps as [|p ps IH]; intros Hin; simpl.
  - by exists [].
  - apply Forall_cons_1 in Hin as [Hp Hin].
    destruct (IH Hin) as (ps1 & -> & Hi & Hr & Hall).
    unfold reset_piece at 1. destruct (idx_lt _ _ Hp) as (tile & Htile & ->). simpl.
    eexists. split; [done|].
    split; [simpl; f_equal; exact Hi|]. split; [simpl; f_equal; exact Hr|].
    by constructor.
Qed.

Lemma all_unplaced (ps : list Piece.t) :
  Forall (fun q => Piece.placed q = false) ps ->
  Piece.placed <$> ps = replicate (length ps) false.
Proof.
  induction 1 as [|q ps Hq _ IH]; [done|].
  rewrite fmap_cons, Hq, IH. done.
Qed.

Lemma new_game_spec rand g :
  well_formed g ->
  exists ps1 ps',
    for_each (reset_piece (map_tiles g)) (pieces g) = Ret ps1
    /\ Forall (fun q => Piece.placed q = false
                        /\ map_tiles g !! Piece.index q = Some (Piece.image q)) ps1
    /\ layout_tray (reset_state rand g ps1) = Ret (set_pieces (reset_state rand g ps1) ps')
    /\ key <$> ps' = key <$> ps1
    /\ new_game rand g = Ret (set_pieces (reset_state rand g ps1) ps')
    /\ invariant (set_pieces (reset_state rand g ps1) ps').
Proof.
  intros Hwf.
  destruct (for_each_reset_piece (map_tiles g) (pieces g)) as (ps1 & Hfe & Hi & _ & Hall).
  { by apply wf_tiles_in_range. }
  assert (invariant (reset_state rand g ps1)) as Hinv.
  { destruct Hwf as [Ht Hts Hpi Hsl Htr].
    assert (reset_slot <$> (reset_slot <$> slots g) = reset_slot <$> slots g) as Hrr.
    { rewrite <- list_fmap_compose. done. }
    split; [split; [split|..]|];
      cbn [reset_state map_tiles slots pieces shuffled_tray held_piece complete].
    - done.
    - done.
    - by rewrite Hi.
    - by rewrite Hrr.
    - by rewrite shuffle_Permutation.
    - rewrite all_unplaced by (eapply Forall_impl; [exact Hall|]; by intros q [? _]).
      rewrite <- (length_fmap Piece.index ps1), Hi, Hpi, length_seq.
      rewrite <- Hrr, Hsl. done.
    - done.
    - rewrite <- Hrr, Hsl. done. }
  destruct (wf_layout_tray _ (con_wf _ (inv_consistent _ Hinv))) as (ps' & Hlay & Hk).
  exists ps1, ps'. split; [done|]. split; [done|]. split; [done|]. split; [done|].
  split.
  - unfold new_game. rewrite Hfe. simpl. exact Hlay.
  - by apply invariant_set_pieces.
Qed.

Lemma module_init_readable w h rand :
  module_init (Readable w h) rand = layout_tray (start_state rand).
Proof. reflexivity. Qed.

Lemma start_state_invariant rand : invariant (start_state rand).
Proof.
  split; [split; [split|..]|]; simpl; try done.
  - repeat constructor.
  - apply shuffle_Permutation.
Qed.

Lemma module_init_invariant f rand g :
  module_init f rand = Ret g -> invariant g.
Proof.
  destruct f as [| |w h]; [done|done|].
  rewrite module_init_readable. intros H.
  pose proof (start_state_invariant rand) as Hinv.
  destruct (wf_layout_tray _ (con_wf _ (inv_consistent _ Hinv))) as (ps' & Hlay & Hk).
  rewrite Hlay in H. injection H as <-. by apply invariant_set_pieces.
Qed.

(** ** Every reachable state satisfies the invariant *)

Lemma advance_invariant ms g : invariant g -> invariant (advance ms g).
Proof.
  intros Hinv. unfold advance. destruct (complete g) eqn:Hc; [|done].
  destruct Hinv as [[Hwf Hfill Hheld] Hcomp].
  split; [split|]; [by destruct Hwf|done|done|]. simpl. congruence.
Qed.

Lemma end_frame_unfold ms rand g :
  end_frame ms rand g =
  (_ <- draw (advance ms g) ;;
   if running g then Ret (advance ms g) else new_game rand (advance ms g)).
Proof. unfold end_frame, advance. by destruct (complete g). Qed.

Lemma end_frame_invariant ms rand g :
  invariant g -> exists g', end_frame ms rand g = Ret g' /\ invariant g'.
Proof.
  intros Hinv. rewrite end_frame_unfold.
  pose proof (advance_invariant ms g Hinv) as Hadv.
  destruct (draw_spec _ (inv_consistent _ Hadv)) as (on_board & _ & ->). simpl.
  destruct (running g).
  - eauto.
  - destruct (new_game_spec rand (advance ms g)) as (ps1 & ps' & _ & _ & _ & _ & -> & Hi).
    + apply Hadv.
    + eauto.
Qed.

Lemma step_invariant g i g' : invariant g -> step g i = Ret g' -> invariant g'.
Proof.
  intros Hinv H. destruct i as [event|ms rand]; simpl in H.
  - assert (event ≠ QUIT) as Hq by (intros ->; done).
    destruct (handle_event_invariant g event Hinv Hq) as (g'' & E & Hinv'). congruence.
  - destruct (end_frame_invariant ms rand g Hinv) as (g'' & E & Hinv'). congruence.
Qed.

Lemma run_invariant g inputs g' : invariant g -> run g inputs = Ret g' -> invariant g'.
Proof.
  revert g. induction inputs as [|i inputs IH]; intros g Hinv H; simpl in H.
  - by injection H as <-.
  - inv_ret. eapply IH; [|exact H]. by eapply step_invariant.
Qed.

Lemma reachable_invariant g : reachable g -> invariant g.
Proof.
  intros (f & rand0 & rand1 & inputs & H). unfold program, main in H. inv_ret.
  apply module_init_invariant in Ha.
  destruct (new_game_spec rand1 a) as (ps1 & ps' & _ & _ & _ & _ & E & Hi).
  { apply Ha. }
  rewrite E in Ha0. injection Ha0 as <-. by eapply run_invariant.
Qed.

(** Reachability is closed under further input. *)
Lemma reachable_step g i g' : reachable g -> step g i = Ret g' -> reachable g'.
Proof.
  intros (f & rand0 & rand1 & inputs & H) Hs.
  exists f, rand0, rand1, (inputs ++ [i]).
  unfold program, main in *. inv_ret.
  rewrite Ha. cbn [bind]. rewrite Ha0. cbn [bind].
  clear Ha Ha0. revert a0 H. induction inputs as [|j inputs IH]; intros g0 H; simpl in *.
  - injection H as ->. by rewrite Hs.
  - inv_ret. rewrite Ha. cbn [bind]. by apply IH.
Qed.

(* ===================================================================== *)
(** * The specified behaviour *)
(* ===================================================================== *)

Lemma forallb_Forall {A : Type} (f : A -> bool) (l : list A) :
  forallb f l = true <-> Forall (fun a => f a = true) l.
Proof.
  induction l as [|a l IH]; simpl.
  - split; [constructor|done].
  - rewrite andb_true_iff, IH. split.
    + intros [? ?]. by constructor.
    + intros [? ?]%Forall_cons_1. done.
Qed.

(** C1.  With the picture file missing, [load_map_tiles] does take the
    fallback path and nine placeholder tiles of full tile size are built, but
    the reference-image load that follows raises, so the start-up aborts and
    no game is ever played.  An existing file that cannot be decoded aborts
    the start-up as well. *)
Theorem missing_picture_aborts_start_up (rand0 rand1 : nat -> nat) (inputs : list Input) :
  (exists tiles,
      load_tiles Missing = Ret tiles
      /\ length tiles = COLS * ROWS
      /\ forall i, i < COLS * ROWS ->
           exists colour,
             FALLBACK_COLOURS !! (i mod length FALLBACK_COLOURS) = Some colour
             /\ tiles !! i = Some {| pixels := Flat colour (i mod length FALLBACK_ICONS);
                                     surf_w := TILE_SIZE; surf_h := TILE_SIZE |})
  /\ load_reference_image Missing = Raise FileNotFoundError
  /\ module_init Missing rand0 = Raise FileNotFoundError
  /\ program Missing rand0 rand1 inputs = Raise FileNotFoundError
  /\ program Unreadable rand0 rand1 inputs = Raise PygameError.
Proof.
  split; [|done].
  eexists. split; [reflexivity|]. split; [reflexivity|].
  intros i Hi. unfold COLS, ROWS in Hi. simpl in Hi.
  do 9 (destruct i as [|i]; [eexists; split; reflexivity|]). lia.
Qed.

(** C3.  In every reachable state [complete] is true exactly when every slot
    is filled. *)
Theorem complete_iff_all_filled (g : Game) :
  reachable g ->
  complete g = true <-> Forall (fun slot => Slot.filled slot = true) (slots g).
Proof.
  intros Hinv%reachable_invariant.
  rewrite (inv_complete _ Hinv). apply forallb_Forall.
Qed.

Lemma complete_iff_all_filled_witness :
  (complete solved_game = true
   <-> Forall (fun slot => Slot.filled slot = true) (slots solved_game))
  /\ complete solved_game = true.
Proof.
  split; [|reflexivity].
  apply (complete_iff_all_filled solved_game).
  exists demo_picture, demo_rand0, demo_rand1, solved_inputs. reflexivity.
Defined.

(** C4.  In every reachable state at most one piece is held, and a held piece
    is not placed. *)
Theorem held_piece_single_and_unplaced (g : Game) :
  reachable g ->
  (forall i j, held g i = true -> held g j = true -> i = j)
  /\ (forall i, held g i = true ->
        exists piece, pieces g !! i = Some piece /\ Piece.placed piece = false).
Proof.
  intros Hinv%reachable_invariant. unfold held. split.
  - intros i j Hi%bool_decide_eq_true Hj%bool_decide_eq_true. congruence.
  - intros i Hi%bool_decide_eq_true.
    by apply is_unplaced_lookup, (con_held _ (inv_consistent _ Hinv)).
Qed.

Lemma held_piece_single_and_unplaced_witness :
  held demo_game 5 = true
  /\ (forall i j, held demo_game i = true -> held demo_game j = true -> i = j)
  /\ (forall i, held demo_game i = true ->
        exists piece, pieces demo_game !! i = Some piece /\ Piece.placed piece = false).
Proof.
  split; [reflexivity|].
  apply (held_piece_single_and_unplaced demo_game).
  exists demo_picture, demo_rand0, demo_rand1, demo_inputs. reflexivity.
Defined.

Lemma complete_not_held g :
  invariant g -> complete g = true -> held_piece g = None.
Proof.
  intros [[Hwf Hfill Hheld] Hcomp] Hc.
  destruct (held_piece g) as [h|] eqn:Hh; [|done]. exfalso.
  destruct (proj1 (is_unplaced_lookup _ _) (Hheld h eq_refl)) as (p & Hp & Hpl).
  rewrite Hcomp in Hc. apply forallb_Forall in Hc.
  assert ((Piece.placed <$> pieces g) !! h = Some false) as Hf.
  { by rewrite list_lookup_fmap, Hp, <- Hpl. }
  rewrite <- Hfill, list_lookup_fmap in Hf.
  destruct (slots g !! h) as [s|] eqn:Hs; [|done].
  pose proof (Forall_lookup_1 _ _ _ _ Hc Hs) as Hfs. simpl in *. congruence.
Qed.

(** C10.  In every reachable state, [complete] implies that no piece is
    held; so whenever a piece is held the pointer-up handler passes its
    [not complete] guard and resolves the drop. *)
Theorem complete_implies_nothing_held (g : Game) :
  reachable g ->
  (complete g = true -> held_piece g = None)
  /\ (forall h pos,
        held_piece g = Some h ->
        complete g = false
        /\ pointer_up g pos
           = (g1 <- drop_loop g h (fst pos) (snd pos) 0 (slots g) ;; after_drop g1)).
Proof.
  intros Hinv%reachable_invariant. split; [by apply complete_not_held|].
  intros h pos Hh.
  assert (complete g = false) as Hc.
  { destruct (complete g) eqn:Hc; [|done].
    rewrite (complete_not_held g Hinv Hc) in Hh. done. }
  split; [done|]. by apply pointer_up_unfold.
Qed.

Lemma complete_implies_nothing_held_witness :
  complete solved_game = true /\ held_piece solved_game = None
  /\ held_piece demo_game = Some 5 /\ complete demo_game = false.
Proof.
  split; [reflexivity|]. split.
  - apply (complete_implies_nothing_held solved_game); [|reflexivity].
    exists demo_picture, demo_rand0, demo_rand1, solved_inputs. reflexivity.
  - split; [reflexivity|].
    refine (proj1 (proj2 (complete_implies_nothing_held demo_game _) 5 (0, 0)%Z _)).
    + exists demo_picture, demo_rand0, demo_rand1, demo_inputs. reflexivity.
    + reflexivity.
Defined.

Lemma handle_event_complete g event g' :
  handle_event g event = Ret g' -> complete g = true -> complete g' = true.
Proof.
  intros H Hc. destruct event as [|key|pos button|pos|pos button|]; simpl in H.
  - done.
  - injection H as <-. by destruct (key =? K_r)%Z.
  - unfold pointer_down in H. rewrite Hc in H. destruct (button =? 1)%Z; congruence.
  - unfold pointer_motion in H. destruct (held_piece g); inv_ret; by subst.
  - unfold pointer_up in H. rewrite Hc in H.
    destruct (button =? 1)%Z; [destruct (held_piece g)|]; simpl in H; congruence.
  - congruence.
Qed.

(** C9.  Once [complete] is true a pointer-down changes nothing at all, and
    [complete] stays true through every event and through every frame end
    that is not a restart (the restart key cleared [running]). *)
Theorem complete_ignores_pointer_down (g : Game) :
  complete g = true ->
  (forall pos button, handle_event g (MOUSEBUTTONDOWN pos button) = Ret g)
  /\ (forall event g', handle_event g event = Ret g' -> complete g' = true)
  /\ (forall events g', run g (Ev <$> events) = Ret g' -> complete g' = true)
  /\ (forall ms rand g',
        running g = true -> end_frame ms rand g = Ret g' -> complete g' = true).
Proof.
  intros Hc. split; [|split; [|split]].
  - intros pos button. simpl. unfold pointer_down. rewrite Hc.
    by destruct (button =? 1)%Z.
  - intros event g' H. by eapply handle_event_complete.
  - intros events. revert g Hc.
    induction events as [|event events IH]; intros g Hc g' H; simpl in H.
    + by injection H as <-.
    + inv_ret. eapply IH; [|exact H]. by eapply handle_event_complete.
  - intros ms rand g' Hrun H. rewrite end_frame_unfold, Hrun in H. inv_ret.
    subst g'. unfold advance. by rewrite Hc.
Qed.

Lemma complete_ignores_pointer_down_witness :
  complete solved_game = true
  /\ handle_event solved_game (MOUSEBUTTONDOWN (30, 90)%Z 1) = Ret solved_game.
Proof.
  split; [reflexivity|].
  apply (complete_ignores_pointer_down solved_game). reflexivity.
Defined.

(** C8.  Laying the tray out a second time changes nothing, whatever the
    state the first layout ran on; on a state whose display order repeats no
    piece, the [i]-th unplaced piece of the display order sits in column
    [i mod TRAY_COLS], row [i / TRAY_COLS], with the tile width the panel width
    and padding fix; and on every well-formed state the layout returns. *)
Theorem relayout_idempotent (g : Game) :
  (forall g',
      layout_tray g = Ret g' ->
      layout_tray g' = Ret g'
      /\ (NoDup (shuffled_tray g) ->
          forall i r,
            unplaced_refs (pieces g) (shuffled_tray g) !! i = Some r ->
            Piece.rect <$> pieces g' !! r
            = Some (mkRect (TRAY_X + TRAY_PAD
                            + Z.of_nat (i mod TRAY_COLS) * (tile_w + TRAY_PAD))
                           (TRAY_Y + 70 + Z.of_nat (i / TRAY_COLS) * (tile_w + TRAY_PAD))
                           tile_w tile_w)))
  /\ (well_formed g -> exists g', layout_tray g = Ret g')
  /\ tile_w = ((TRAY_W - TRAY_PAD * (Z.of_nat TRAY_COLS + 1)) / Z.of_nat TRAY_COLS)%Z.
Proof.
  split; [|split; [|done]].
  - intros g' H. split; [by eapply layout_tray_again|].
    intros Hnd i r Hi. unfold layout_tray in H. inv_ret. subst g'.
    apply unplaced_of_Ret in Ha as [_ ->].
    destruct (layout_loop_cell _ _ _ _ _ i r (NoDup_filter _ _ Hnd) Ha0 Hi)
      as (p & tile & _ & _ & Hr).
    simpl. by rewrite Hr.
  - intros Hwf. destruct (wf_layout_tray g Hwf) as (ps' & H & _). eauto.
Qed.

Lemma relayout_idempotent_witness :
  layout_tray demo_game = Ret (unwrap (layout_tray demo_game))
  /\ layout_tray (unwrap (layout_tray demo_game)) = Ret (unwrap (layout_tray demo_game))
  /\ Piece.rect <$> pieces (unwrap (layout_tray demo_game)) !! 6
     = Some (mkRect 22 234 142 142).
Proof.
  split; [reflexivity|].
  destruct (proj1 (relayout_idempotent demo_game) (unwrap (layout_tray demo_game)))
    as [Hagain Hcell]; [reflexivity|].
  split; [exact Hagain|].
  assert (NoDup (shuffled_tray demo_game)) as Hnd.
  { apply (bool_decide_unpack (NoDup (shuffled_tray demo_game))). vm_compute. exact I. }
  apply (Hcell Hnd 2 6). reflexivity.
Defined.

(** ** Conservation of pieces *)

Lemma filter_ext_in {A : Type} (P Q : A -> Prop)
    `{!forall x, Decision (P x), !forall x, Decision (Q x)} (l : list A) :
  (forall x, x ∈ l -> P x <-> Q x) -> filter P l = filter Q l.
Proof.
  induction l as [|a l IH]; intros Hiff; [done|].
  rewrite !filter_cons, IH.
  - destruct (decide (P a)) as [Hp|Hp], (decide (Q a)) as [Hq|Hq]; try done.
    + apply Hiff in Hp; [done|left].
    + apply Hiff in Hq; [done|left].
  - intros x Hx. apply Hiff. by right.
Qed.

Lemma filter_none {A : Type} (P : A -> Prop) `{!forall x, Decision (P x)} (l : list A) :
  Forall (fun x => ¬ P x) l -> filter P l = [].
Proof.
  induction 1 as [|a l Ha _ IH]; [done|]. by rewrite filter_cons_False.
Qed.

Lemma filter_fmap_comm {A B : Type} (f : A -> B) (P : B -> Prop)
    `{!forall y, Decision (P y)} (l : list A) :
  filter P (f <$> l) = f <$> filter (fun a => P (f a)) l.
Proof.
  induction l as [|a l IH]; [done|].
  rewrite fmap_cons, !filter_cons, IH. by destruct (decide (P (f a))).
Qed.

(** Three properties of which every element of [l] has exactly one split [l]
    into three parts. *)
Lemma filter_partition3 {A : Type} (P Q R : A -> Prop)
    `{!forall x, Decision (P x), !forall x, Decision (Q x), !forall x, Decision (R x)}
    (l : list A) :
  (forall x, x ∈ l ->
     (P x /\ ¬ Q x /\ ¬ R x) \/ (¬ P x /\ Q x /\ ¬ R x) \/ (¬ P x /\ ¬ Q x /\ R x)) ->
  filter P l ++ filter Q l ++ filter R l ≡ₚ l.
Proof.
  induction l as [|a l IH]; intros Hone; [done|].
  assert (filter P l ++ filter Q l ++ filter R l ≡ₚ l) as IH'.
  { apply IH. intros x Hx. apply Hone. by right. }
  destruct (Hone a) as [(Hp & Hq & Hr)|[(Hp & Hq & Hr)|(Hp & Hq & Hr)]]; [left|..].
  - rewrite (filter_cons_True P), (filter_cons_False Q), (filter_cons_False R) by done.
    simpl. by rewrite IH'.
  - rewrite (filter_cons_False P), (filter_cons_True Q), (filter_cons_False R) by done.
    rewrite <- app_comm_cons, <- Permutation_middle. by rewrite IH'.
  - rewrite (filter_cons_False P), (filter_cons_False Q), (filter_cons_True R) by done.
    rewrite app_assoc, <- Permutation_middle, <- app_assoc. by rewrite IH'.
Qed.

Lemma placed_pieces_filter g :
  well_formed g ->
  placed_pieces g
  = filter (fun i => Piece.placed <$> pieces g !! i = Some true) (seq 0 (COLS * ROWS)).
Proof.
  intros Hwf. unfold placed_pieces. rewrite <- (wf_pieces g Hwf), filter_fmap_comm.
  f_equal. apply filter_ext_in. intros p [i Hi]%list_elem_of_lookup.
  rewrite (wf_piece_index g Hwf i p Hi), Hi. simpl. split; congruence.
Qed.

Lemma held_pieces_filter g :
  consistent g ->
  held_pieces g = filter (fun i => held_piece g = Some i) (seq 0 (COLS * ROWS)).
Proof.
  intros Hc. unfold held_pieces. destruct (held_piece g) as [h|] eqn:Hh.
  - destruct (held_in_range g h Hc Hh) as (p & Hp & _ & Hpi & Hlt).
    rewrite Hp. cbn [from_option]. rewrite Hpi.
    assert (forall n m, m <= h < m + n ->
              filter (fun i => Some h = Some i) (seq m n) = [h]) as E.
    { clear. induction n as [|n IH]; intros m Hm; [lia|]. simpl.
      rewrite filter_cons. destruct (decide (Some h = Some m)) as [[= <-]|Hne].
      - f_equal. apply filter_none.
        apply Forall_forall. intros i [Hi _]%elem_of_seq [= ->]. lia.
      - apply IH. assert (m ≠ h) by congruence. lia. }
    symmetry. apply E. lia.
  - symmetry. apply filter_none. by apply Forall_forall.
Qed.

Lemma blit_piece_tray (r : nat -> Rect) (l : list nat) :
  blit_piece <$> ((fun i => PieceBlit i (r i) false) <$> l) = l.
Proof. induction l as [|i l IH]; [done|]. rewrite !fmap_cons, IH. done. Qed.

(** C5.  In every reachable state the pieces painted in the tray, the placed
    pieces and the held piece (if any) together are the indices
    [0 .. COLS*ROWS), each exactly once. *)
Theorem pieces_conserved (g : Game) :
  reachable g ->
  exists in_tray,
    draw_tray (pieces g) (held_piece g) (shuffled_tray g) = Ret in_tray
    /\ (blit_piece <$> in_tray) ++ placed_pieces g ++ held_pieces g
       ≡ₚ seq 0 (COLS * ROWS).
Proof.
  intros Hinv%reachable_invariant. pose proof (inv_consistent _ Hinv) as Hc.
  pose proof (con_wf _ Hc) as Hwf.
  eexists. split; [apply draw_tray_spec; by apply wf_tray_in_range|].
  rewrite (blit_piece_tray (rect_at (pieces g))).
  rewrite (wf_tray g Hwf), (placed_pieces_filter g Hwf), (held_pieces_filter g Hc).
  apply filter_partition3. intros x [_ Hx]%elem_of_seq.
  rewrite <- (wf_length_pieces g Hwf) in Hx.
  destruct (lookup_lt_is_Some_2 _ _ Hx) as [p Hp].
  unfold shown. rewrite is_unplaced_lookup, Hp. simpl.
  destruct (decide (held_piece g = Some x)) as [Hh|Hh].
  - right. right.
    pose proof (con_held _ Hc x Hh) as Hu. apply is_unplaced_lookup in Hu.
    destruct Hu as (p' & Hp' & Hpl). assert (p' = p) as -> by congruence.
    rewrite Hpl. split; [tauto|]. split; [congruence|done].
  - destruct (Piece.placed p) eqn:Hpl.
    + right. left. split; [|done]. intros [(p' & [= <-] & ?) _]. congruence.
    + left. split; [|split; [congruence|done]]. split; [eauto|done].
Qed.

Lemma pieces_conserved_witness :
  exists in_tray,
    draw_tray (pieces demo_game) (held_piece demo_game) (shuffled_tray demo_game)
    = Ret in_tray
    /\ (blit_piece <$> in_tray) ++ placed_pieces demo_game ++ held_pieces demo_game
       ≡ₚ seq 0 (COLS * ROWS).
Proof.
  apply (pieces_conserved demo_game).
  exists demo_picture, demo_rand0, demo_rand1, demo_inputs. reflexivity.
Defined.

(** ** Drop resolution *)

Lemma layout_tray_laid g g' i r :
  layout_tray g = Ret g' -> NoDup (shuffled_tray g) ->
  unplaced_refs (pieces g) (shuffled_tray g) !! i = Some r ->
  exists p', pieces g' !! r = Some p' /\ Piece.rect p' = tray_cell i
             /\ surf_w (Piece.image p') = tile_w /\ surf_h (Piece.image p') = tile_w.
Proof.
  intros H Hnd Hi. unfold layout_tray in H. inv_ret. subst g'.
  apply unplaced_of_Ret in Ha as [_ ->].
  destruct (layout_loop_cell _ _ _ _ _ i r (NoDup_filter _ _ Hnd) Ha0 Hi)
    as (p & tile & _ & _ & Hr).
  exists (laid p tile i). done.
Qed.

Lemma layout_tray_cell g g' i r :
  layout_tray g = Ret g' -> NoDup (shuffled_tray g) ->
  unplaced_refs (pieces g) (shuffled_tray g) !! i = Some r ->
  Piece.rect <$> pieces g' !! r = Some (tray_cell i).
Proof.
  intros H Hnd Hi.
  destruct (layout_tray_laid g g' i r H Hnd Hi) as (p' & -> & <- & _). done.
Qed.

Lemma pointer_up_outcome g h x y :
  invariant g -> held_piece g = Some h ->
  exists g1 ps',
    ((exists slot p tile,
         slots g !! h = Some slot /\ accepts slot x y = true
         /\ pieces g !! h = Some p /\ g1 = dropped g h slot p tile)
     \/ ((forall slot, slots g !! h = Some slot -> accepts slot x y = false) /\ g1 = g))
    /\ key <$> ps' = key <$> pieces g1
    /\ layout_tray (set_held g1 None (drag_offset g1))
       = Ret (set_pieces (set_held g1 None (drag_offset g1)) ps')
    /\ pointer_up g (x, y) = Ret (released g1 ps').
Proof.
  intros Hinv Hh. pose proof (inv_consistent _ Hinv) as Hc.
  assert (complete g = false) as Hcomp.
  { destruct (complete g) eqn:E; [|done].
    rewrite (complete_not_held g Hinv E) in Hh. done. }
  rewrite (pointer_up_unfold g h (x, y) Hh Hcomp). cbn [fst snd].
  destruct (drop_loop_cases g h x y Hc Hh)
    as [(slot & p & tile & Hs & Hacc & Hp & _ & ->)|[Hno ->]]; cbn [bind].
  - destruct (after_drop_invariant (dropped g h slot p tile))
      as (ps' & Hk & Hlay & -> & _).
    + exact (consistent_dropped g h slot p tile Hc Hs Hp).
    + done.
    + exists (dropped g h slot p tile), ps'. split; [left; by eauto 10|done].
  - destruct (after_drop_invariant g) as (ps' & Hk & Hlay & -> & _).
    + by apply consistent_release.
    + done.
    + exists g, ps'. split; [by right|done].
Qed.

Lemma released_fields g1 ps' :
  held_piece (released g1 ps') = None
  /\ pieces (released g1 ps') = ps'
  /\ slots (released g1 ps') = slots g1
  /\ shuffled_tray (released g1 ps') = shuffled_tray g1.
Proof. unfold released. by destruct (forallb Slot.filled (slots g1)). Qed.

Lemma accepts_iff slot x y :
  accepts slot x y = true
  <-> Slot.filled slot = false /\ collidepoint (Slot.rect slot) x y = true.
Proof. unfold accepts. rewrite andb_true_iff, negb_true_iff. done. Qed.

(** C2.  With a piece of home index [k] held, releasing the primary button
    over an unfilled slot [j] marks the piece placed and the slot filled
    exactly when [j = k] (and then changes no other flag); when no unfilled
    slot under the pointer matches, no placed or filled flag changes and the
    piece is laid out in the tray again.  Either way nothing is held
    afterwards. *)
Theorem drop_resolution (g : Game) (h k : nat) (piece : Piece.t) (x y : Z) :
  reachable g ->
  held_piece g = Some h -> pieces g !! h = Some piece -> Piece.index piece = k ->
  exists g',
    handle_event g (MOUSEBUTTONUP (x, y) 1) = Ret g'
    /\ held_piece g' = None
    /\ (forall j slot,
          slots g !! j = Some slot -> Slot.filled slot = false ->
          collidepoint (Slot.rect slot) x y = true ->
          ((Piece.placed <$> pieces g' !! h = Some true
            /\ Slot.filled <$> slots g' !! j = Some true) <-> j = k)
          /\ (j = k ->
              Piece.placed <$> pieces g' = <[h := true]> (Piece.placed <$> pieces g)
              /\ Slot.filled <$> slots g' = <[j := true]> (Slot.filled <$> slots g)))
    /\ ((forall j slot,
           slots g !! j = Some slot -> Slot.filled slot = false ->
           collidepoint (Slot.rect slot) x y = true -> j ≠ k) ->
        Piece.placed <$> pieces g' = Piece.placed <$> pieces g
        /\ Slot.filled <$> slots g' = Slot.filled <$> slots g
        /\ exists i,
             unplaced_refs (pieces g') (shuffled_tray g') !! i = Some h
             /\ Piece.rect <$> pieces g' !! h = Some (tray_cell i)).
Proof.
  intros Hinv%reachable_invariant Hh Hp Hk.
  pose proof (inv_consistent _ Hinv) as Hc. pose proof (con_wf _ Hc) as Hwf.
  assert (h = k) as <- by (rewrite <- Hk; symmetry; by eapply wf_piece_index).
  pose proof (con_held _ Hc h Hh) as Hun.
  destruct (pointer_up_outcome g h x y Hinv Hh) as (g1 & ps' & Hcase & Hkey & Hlay & Hup).
  destruct (released_fields g1 ps') as (Rh & Rp & Rs & Rt).
  exists (released g1 ps'). split; [exact Hup|]. split; [exact Rh|].
  rewrite Rp, Rs, Rt. setoid_rewrite <- list_lookup_fmap.
  rewrite (placed_of_key ps'), Hkey, <- placed_of_key.
  destruct Hcase as [(slot & p & tile & Hs & Hacc & Hp' & ->)|[Hno ->]].
  - (* the piece went into its slot *)
    assert (forall j slot', slots g !! j = Some slot' -> Slot.filled slot' = false ->
                            collidepoint (Slot.rect slot') x y = true -> j = h) as Hj.
    { intros j slot' Hs' Hf' Hc'.
      pose proof (first_target_unique g x y _ _ Hwf Hs Hacc) as E1.
      pose proof (first_target_unique g x y _ _ Hwf Hs' (proj2 (accepts_iff _ _ _)
                    (conj Hf' Hc'))) as E2.
      congruence. }
    cbn [dropped set_pieces set_slots pieces slots]. rewrite !list_fmap_insert.
    cbn [snapped fill Piece.placed Slot.filled].
    split.
    + intros j slot' Hs' Hf' Hc'. rewrite (Hj j slot' Hs' Hf' Hc').
      split; [|done]. split; [done|]. intros _.
      rewrite !list_lookup_insert_eq; [done|..]; rewrite length_fmap;
        by eapply lookup_lt_Some.
    + intros Hmis. apply accepts_iff in Hacc as [Hf Hcol].
      by destruct (Hmis h slot Hs Hf Hcol).
  - (* nothing was written by the drop loop *)
    split.
    + intros j slot Hs Hf Hcol.
      assert (j ≠ h) as Hne.
      { intros ->. pose proof (Hno slot Hs) as E.
        pose proof (proj2 (accepts_iff slot x y) (conj Hf Hcol)). congruence. }
      split; [|done]. split; [|done]. intros [Hpl _].
      unfold is_unplaced in Hun. rewrite list_lookup_fmap in Hpl. congruence.
    + intros _. split; [done|]. split; [done|].
      assert (h ∈ unplaced_refs ps' (shuffled_tray g)) as Hin.
      { apply list_elem_of_filter. split.
        - by apply (is_unplaced_key ps' (pieces g)).
        - apply (wf_tray_elem g Hwf).
          by destruct (held_in_range g h Hc Hh) as (? & _ & _ & _ & ?). }
      apply list_elem_of_lookup in Hin as [i Hi]. exists i. split; [done|].
      rewrite list_lookup_fmap.
      change ps' with (pieces (set_pieces (set_held g None (drag_offset g)) ps')).
      eapply layout_tray_cell; [exact Hlay|by apply (wf_tray_NoDup g)|].
      cbn [set_held pieces shuffled_tray].
      by rewrite <- (unplaced_refs_key ps' (pieces g)).
Qed.

Lemma drop_resolution_witness :
  held_piece demo_game = Some 5
  /\ exists g',
       handle_event demo_game (MOUSEBUTTONUP (750, 320)%Z 1) = Ret g'
       /\ held_piece g' = None
       /\ Piece.placed <$> pieces g' !! 5 = Some true
       /\ Slot.filled <$> slots g' !! 5 = Some true.
Proof.
  split; [reflexivity|].
  destruct (pieces demo_game !! 5) as [piece|] eqn:Hpiece; [|discriminate Hpiece].
  destruct (drop_resolution demo_game 5 5 piece 750 320)
    as (g' & Hev & Hheld & Hhit & _).
  - exists demo_picture, demo_rand0, demo_rand1, demo_inputs. reflexivity.
  - reflexivity.
  - exact Hpiece.
  - vm_compute in Hpiece. injection Hpiece as <-. reflexivity.
  - exists g'. split; [exact Hev|]. split; [exact Hheld|].
    edestruct (Hhit 5) as [Hiff _]; [reflexivity..|].
    apply Hiff. reflexivity.
Defined.

(** ** Pick-up order *)

Lemma hits_iff ps x y i :
  hits ps x y i = true
  <-> is_unplaced ps i /\ collidepoint (rect_at ps i) x y = true.
Proof.
  unfold hits, rect_at. rewrite is_unplaced_lookup.
  destruct (ps !! i) as [p|]; simpl.
  - rewrite andb_true_iff, negb_true_iff. split.
    + intros [? ?]. eauto.
    + intros [(p' & [= <-] & ?) ?]. done.
  - split; [done|]. by intros [(p' & [=] & _) _].
Qed.



(** C6.  The pick-up loop walks the display order backwards so as to take
    the piece painted on top, but it has no test on [held_piece], and [draw]
    paints the held piece above every tray piece.  With piece 1 held (a
    press at (30, 90) in a new game) and grown to full tile size, the point
    (178, 100) lies in the rectangles of pieces 1 and 2, both unplaced.  A
    second press there, with no release in between, picks up piece 2, later
    in display order, although the piece painted last over that point is
    the held piece 1. *)
Lemma held_piece_on_top_is_not_picked :
  reachable held_game
  /\ complete held_game = false
  /\ shuffled_tray held_game = [1; 2; 3; 4; 5; 6; 7; 8; 0]
  /\ held_piece held_game = Some 1
  /\ hits (pieces held_game) 178 100 1 = true
  /\ hits (pieces held_game) 178 100 2 = true
  /\ exists g' blits,
       handle_event held_game (MOUSEBUTTONDOWN (178, 100)%Z 1) = Ret g'
       /\ draw held_game = Ret blits
       /\ held_piece g' = Some 2
       /\ loose_piece (topmost blits 178 100) = Some 1
       /\ held_piece g' ≠ loose_piece (topmost blits 178 100).
Proof.
  split.
  { exists demo_picture, demo_rand0, demo_rand1, held_inputs. reflexivity. }
  do 5 (split; [reflexivity|]).
  eexists _, _. split; [reflexivity|]. split; [reflexivity|].
  split; [reflexivity|]. split; [reflexivity|]. discriminate.
Qed.

(** ** Restart *)

Lemma run_app g l1 l2 : run g (l1 ++ l2) = (g1 <- run g l1 ;; run g1 l2).
Proof.
  revert g. induction l1 as [|i l1 IH]; intros g; simpl; [done|].
  destruct (step g i) as [g1|e]; simpl; [apply IH|done].
Qed.

(** No handler touches the display order or the tiles, and none sets
    [running] again. *)
Lemma handle_event_session g event g' :
  invariant g -> handle_event g event = Ret g' ->
  shuffled_tray g' = shuffled_tray g /\ map_tiles g' = map_tiles g
  /\ (running g = false -> running g' = false).
Proof.
  intros Hinv H. pose proof (inv_consistent _ Hinv) as Hc.
  destruct event as [|key|[x y] button|pos|[x y] button|]; simpl in H.
  - done.
  - injection H as <-. by destruct (key =? K_r)%Z.
  - destruct (button =? 1)%Z; [|by injection H as <-].
    destruct (complete g) eqn:Hcomp.
    { unfold pointer_down in H. rewrite Hcomp in H. by injection H as <-. }
    pose proof (pointer_down_spec g x y (con_wf _ Hc) Hcomp) as Hspec.
    destruct (last _) as [i|].
    + destruct Hspec as (p & tile & _ & _ & _ & _ & E). rewrite E in H.
      by injection H as <-.
    + rewrite Hspec in H. by injection H as <-.
  - unfold pointer_motion in H. destruct (held_piece g); inv_ret; by subst.
  - destruct (button =? 1)%Z; [|by injection H as <-].
    destruct (held_piece g) as [h|] eqn:Hh.
    + destruct (pointer_up_outcome g h x y Hinv Hh) as (g1 & ps' & Hcase & _ & _ & E).
      rewrite E in H. injection H as <-. unfold released.
      destruct Hcase as [(slot & p & tile & _ & _ & _ & ->)|[_ ->]];
        by destruct (forallb _ _).
    + unfold pointer_up in H. rewrite Hh in H. by injection H as <-.
  - by injection H as <-.
Qed.






(* ===================================================================== *)
(** * Further properties of the code *)
(* ===================================================================== *)

(** ** Induction over runs *)

(** A property that every new game has and every step keeps holds in every
    state a run passes through; [Q] restricts the inputs considered. *)
Lemma program_induction (P : Game -> Prop) (Q : Input -> Prop) :
  (forall rand g g', invariant g -> new_game rand g = Ret g' -> P g') ->
  (forall g event g',
      invariant g -> P g -> Q (Ev event) -> handle_event g event = Ret g' -> P g') ->
  (forall g ms rand,
      invariant g -> P g -> Q (Tick ms rand) -> P (advance ms g)) ->
  forall f rand0 rand1 inputs g,
    Forall Q inputs -> program f rand0 rand1 inputs = Ret g -> P g.
Proof.
  intros Hnew Hev Hadv f rand0 rand1 inputs g HQ H.
  unfold program, main in H. inv_ret.
  apply module_init_invariant in Ha.
  assert (invariant a0 /\ P a0) as [Hinv HP].
  { split; [|by eapply Hnew].
    destruct (new_game_spec rand1 a) as (ps1 & ps' & _ & _ & _ & _ & E & Hi);
      [apply Ha|]. congruence. }
  clear Ha Ha0. revert a0 Hinv HP H.
  induction HQ as [|i inputs Hi _ IH]; intros g0 Hinv HP H; simpl in H.
  - by injection H as <-.
  - apply bind_Ret in H as (g1 & Hs & H).
    apply (IH g1); [by eapply step_invariant| |done].
    destruct i as [event|ms rand]; simpl in Hs.
    + by eapply Hev.
    + rewrite end_frame_unfold in Hs. apply bind_Ret in Hs as (blits & _ & Hs).
      destruct (running g0); [injection Hs as <-; by eapply Hadv|].
      eapply Hnew; [|exact Hs]. by apply advance_invariant.
Qed.

Lemma reachable_induction (P : Game -> Prop) :
  (forall rand g g', invariant g -> new_game rand g = Ret g' -> P g') ->
  (forall g event g', invariant g -> P g -> handle_event g event = Ret g' -> P g') ->
  (forall g ms, invariant g -> P g -> P (advance ms g)) ->
  forall g, reachable g -> P g.
Proof.
  intros Hnew Hev Hadv g (f & rand0 & rand1 & inputs & H).
  apply (program_induction P (fun _ => True)) with f rand0 rand1 inputs; eauto.
  by apply Forall_true.
Qed.

(** What one event can do to a state of the game. *)
Lemma played_reachable g : played g -> reachable g.
Proof. intros (f & rand0 & rand1 & inputs & _ & H). by exists f, rand0, rand1, inputs. Qed.

Lemma input_ok_tick (i : Input) : input_ok i -> tick_ok i.
Proof. by destruct i as [[]|]. Qed.

Lemma handle_event_cases g event g' :
  invariant g -> handle_event g event = Ret g' ->
  (g' = g \/ g' = set_running g false)
  \/ (exists x y i p tile,
        event = MOUSEBUTTONDOWN (x, y) 1 /\ complete g = false
        /\ last (filter (fun i => hits (pieces g) x y i = true) (shuffled_tray g)) = Some i
        /\ pieces g !! i = Some p /\ map_tiles g !! Piece.index p = Some tile
        /\ Piece.placed p = false /\ collidepoint (Piece.rect p) x y = true
        /\ g' = pick g x y i p tile)
  \/ (exists pos h p,
        event = MOUSEMOTION pos /\ held_piece g = Some h /\ pieces g !! h = Some p
        /\ Piece.placed p = false
        /\ g' = set_pieces g (<[h := moved p pos (drag_offset g)]> (pieces g)))
  \/ (exists x y h g1 ps',
        event = MOUSEBUTTONUP (x, y) 1 /\ held_piece g = Some h /\ complete g = false
        /\ ((exists slot p tile,
                slots g !! h = Some slot /\ accepts slot x y = true
                /\ pieces g !! h = Some p /\ g1 = dropped g h slot p tile)
            \/ ((forall slot, slots g !! h = Some slot -> accepts slot x y = false)
                /\ g1 = g))
        /\ key <$> ps' = key <$> pieces g1
        /\ layout_tray (set_held g1 None (drag_offset g1))
           = Ret (set_pieces (set_held g1 None (drag_offset g1)) ps')
        /\ g' = released g1 ps').
Proof.
  intros Hinv H. pose proof (inv_consistent _ Hinv) as Hc.
  destruct event as [|key|[x y] button|pos|[x y] button|]; simpl in H.
  - done.
  - left. injection H as <-. destruct (key =? K_r)%Z; auto.
  - destruct (button =? 1)%Z eqn:Hb; [|left; left; congruence].
    apply Z.eqb_eq in Hb as ->.
    destruct (complete g) eqn:Hcomp.
    { unfold pointer_down in H. rewrite Hcomp in H. left. left. congruence. }
    pose proof (pointer_down_spec g x y (con_wf _ Hc) Hcomp) as Hspec.
    destruct (last _) as [i|] eqn:Hlast.
    + destruct Hspec as (p & tile & Hp & Htile & Hpl & Hcol & E). rewrite E in H.
      injection H as <-. right. left. exists x, y, i, p, tile. done.
    + left. left. congruence.
  - unfold pointer_motion in H. destruct (held_piece g) as [h|] eqn:Hh.
    + destruct (held_in_range g h Hc Hh) as (p & Hp & Hpl & _).
      apply idx_Ret in Hp as Hidx. rewrite Hidx in H. simpl in H.
      injection H as <-. right. right. left. exists pos, h, p. done.
    + left. left. congruence.
  - destruct (button =? 1)%Z eqn:Hb; [|left; left; congruence].
    apply Z.eqb_eq in Hb as ->.
    destruct (held_piece g) as [h|] eqn:Hh.
    + destruct (pointer_up_outcome g h x y Hinv Hh) as (g1 & ps' & Hcase & Hk & Hlay & E).
      rewrite E in H. injection H as <-. right. right. right.
      exists x, y, h, g1, ps'. split; [done|]. split; [done|]. split; [|done].
      destruct (complete g) eqn:E'; [|done].
      by rewrite (complete_not_held g Hinv E') in Hh.
    + unfold pointer_up in H. rewrite Hh in H. left. left. congruence.
  - left. left. congruence.
Qed.

(** ** Loading and slicing *)





(** X2.  For a tile size from zero up to the window height,
    [make_fallback_tile] returns for every index, never running off the end
    of the colour or glyph table: it takes the entries at [index mod 9], so
    tiles nine indices apart are the same. *)
Theorem make_fallback_tile_wraps (index : nat) (tile_size : Z) :
  (0 <= tile_size <= SCREEN_H)%Z ->
  exists colour,
    FALLBACK_COLOURS !! (index mod length FALLBACK_COLOURS) = Some colour
    /\ make_fallback_tile index tile_size
       = Ret {| pixels := Flat colour (index mod length FALLBACK_ICONS);
                surf_w := tile_size; surf_h := tile_size |}
    /\ make_fallback_tile (index + length FALLBACK_COLOURS) tile_size
       = make_fallback_tile index tile_size.
Proof.
  intros _.
  assert (forall m, m < 9 ->
            exists colour,
              FALLBACK_COLOURS !! m = Some colour
              /\ (colour <- idx FALLBACK_COLOURS m ;;
                  icon <- idx FALLBACK_ICONS m ;;
                  Ret {| pixels := Flat colour icon; surf_w := tile_size;
                         surf_h := tile_size |})
                 = Ret {| pixels := Flat colour m; surf_w := tile_size;
                          surf_h := tile_size |}) as Htable.
  { intros m Hm. do 9 (destruct m as [|m]; [eexists; split; reflexivity|]). lia. }
  change (length FALLBACK_COLOURS) with 9. change (length FALLBACK_ICONS) with 9.
  destruct (Htable (index mod 9)) as (colour & Hc & Hr).
  { apply Nat.mod_upper_bound. lia. }
  exists colour. split; [done|]. split; [exact Hr|].
  unfold make_fallback_tile.
  change (length FALLBACK_COLOURS) with 9. change (length FALLBACK_ICONS) with 9.
  replace ((index + 9) mod 9) with (index mod 9); [done|].
  symmetry. apply (Nat.Div0.mod_add index 1 9).
Qed.

Lemma make_fallback_tile_wraps_witness :
  exists colour,
    FALLBACK_COLOURS !! (11 mod length FALLBACK_COLOURS) = Some colour
    /\ make_fallback_tile 11 160
       = Ret {| pixels := Flat colour (11 mod length FALLBACK_ICONS);
                surf_w := 160; surf_h := 160 |}
    /\ make_fallback_tile (11 + length FALLBACK_COLOURS) 160
       = make_fallback_tile 11 160.
Proof. apply (make_fallback_tile_wraps 11 160). unfold SCREEN_H. lia. Defined.

(** X3.  Whichever path supplies them, the game gets [COLS * ROWS] tiles of
    [TILE_SIZE] square: sliced from a readable picture, placeholders when the
    file is missing.  The tile load raises only for a file that exists and
    cannot be decoded. *)
Theorem load_tiles_count_and_size (f : ImageFile) :
  match load_tiles f with
  | Ret tiles =>
      f ≠ Unreadable /\ length tiles = COLS * ROWS
      /\ Forall (fun t => surf_w t = TILE_SIZE /\ surf_h t = TILE_SIZE) tiles
  | Raise e => f = Unreadable /\ e = PygameError
  end.
Proof.
  destruct f as [| |w h]; simpl.
  - split; [done|]. split; [done|]. repeat constructor.
  - done.
  - split; [done|]. split; [done|]. repeat constructor.
Qed.

(** ** Geometry of the board and the tray *)

(** X4.  The nine slot rectangles tile the board: a point lies in some slot
    exactly when it lies in the board square, and then in one slot only. *)
Theorem slots_tile_the_board (x y : Z) :
  ((BOARD_X <= x < BOARD_X + Z.of_nat COLS * TILE_SIZE)%Z
   /\ (BOARD_Y <= y < BOARD_Y + Z.of_nat ROWS * TILE_SIZE)%Z
   <-> exists i, i < COLS * ROWS
                 /\ collidepoint (Slot.rect (Slot.init i)) x y = true)
  /\ (forall i j,
        collidepoint (Slot.rect (Slot.init i)) x y = true ->
        collidepoint (Slot.rect (Slot.init j)) x y = true -> i = j).
Proof.
  split; [|intros i j; apply board_disjoint].
  unfold collidepoint, Slot.init. cbn [Slot.rect rx ry rw rh].
  change BOARD_Y with 80%Z. unfold BOARD_X, TILE_SIZE, COLS, ROWS.
  split.
  - intros [Hx Hy].
    exists (Z.to_nat ((y - 80) / 160) * 3 + Z.to_nat ((x - 350) / 160)).
    assert (0 <= (x - 350) / 160 < 3)%Z as Hc.
    { split; [apply Z.div_pos; lia|apply Z.div_lt_upper_bound; lia]. }
    assert (0 <= (y - 80) / 160 < 3)%Z as Hr.
    { split; [apply Z.div_pos; lia|apply Z.div_lt_upper_bound; lia]. }
    pose proof (Z.mul_div_le (x - 350) 160 ltac:(lia)) as Hx1.
    pose proof (Z.mul_succ_div_gt (x - 350) 160 ltac:(lia)) as Hx2.
    pose proof (Z.mul_div_le (y - 80) 160 ltac:(lia)) as Hy1.
    pose proof (Z.mul_succ_div_gt (y - 80) 160 ltac:(lia)) as Hy2.
    set (c := Z.to_nat ((x - 350) / 160)). set (r := Z.to_nat ((y - 80) / 160)).
    assert (c < 3) as Hc3 by (unfold c; lia). assert (r < 3) as Hr3 by (unfold r; lia).
    assert ((r * 3 + c) mod 3 = c) as ->.
    { rewrite Nat.add_comm, Nat.Div0.mod_add. by apply Nat.mod_small. }
    assert ((r * 3 + c) / 3 = r) as ->.
    { rewrite Nat.add_comm, Nat.div_add by lia. rewrite Nat.div_small by done. done. }
    split; [lia|]. rewrite !andb_true_iff, !Z.leb_le, !Z.ltb_lt. unfold c, r. lia.
  - intros (i & Hi & H). rewrite !andb_true_iff, !Z.leb_le, !Z.ltb_lt in H.
    pose proof (Nat.mod_upper_bound i 3 ltac:(lia)) as Hc.
    assert (i / 3 < 3) as Hr by (apply Nat.Div0.div_lt_upper_bound; lia).
    lia.
Qed.

Lemma tray_cell_disjoint (i j : nat) (x y : Z) :
  collidepoint (tray_cell i) x y = true ->
  collidepoint (tray_cell j) x y = true ->
  i = j.
Proof.
  unfold collidepoint, tray_cell. cbn [rx ry rw rh].
  pose proof (Nat.div_mod_eq i TRAY_COLS) as Ei.
  pose proof (Nat.div_mod_eq j TRAY_COLS) as Ej.
  pose proof (Nat.mod_upper_bound i TRAY_COLS ltac:(done)) as Bi.
  pose proof (Nat.mod_upper_bound j TRAY_COLS ltac:(done)) as Bj.
  generalize dependent (i mod TRAY_COLS). generalize dependent (i / TRAY_COLS).
  generalize dependent (j mod TRAY_COLS). generalize dependent (j / TRAY_COLS).
  intros rj cj Ej Bj ri ci Ei Bi.
  change tile_w with 142%Z. unfold TRAY_X, TRAY_Y, TRAY_PAD, TRAY_COLS in *.
  rewrite !andb_true_iff, !Z.leb_le, !Z.ltb_lt. lia.
Qed.

Lemma tray_cell_bounds (i : nat) (x y : Z) :
  collidepoint (tray_cell i) x y = true ->
  (TRAY_X <= x < TRAY_X + TRAY_W)%Z /\ ((y < SCREEN_H)%Z -> i < 8).
Proof.
  unfold collidepoint, tray_cell. cbn [rx ry rw rh].
  pose proof (Nat.div_mod_eq i TRAY_COLS) as Ei.
  pose proof (Nat.mod_upper_bound i TRAY_COLS ltac:(done)) as Bi.
  generalize dependent (i mod TRAY_COLS). generalize dependent (i / TRAY_COLS).
  intros ri ci Ei Bi.
  change tile_w with 142%Z.
  unfold TRAY_X, TRAY_Y, TRAY_PAD, TRAY_COLS, TRAY_W, SCREEN_H in *.
  rewrite !andb_true_iff, !Z.leb_le, !Z.ltb_lt. lia.
Qed.

(** X5.  Tray cells do not overlap and stay inside the tray panel sideways,
    but only the first eight reach into the window: a point of the window
    that lies in tray cell [i] has [i < 8]. *)
Theorem tray_cells_in_window (i : nat) (x y : Z) :
  collidepoint (tray_cell i) x y = true ->
  (forall j, collidepoint (tray_cell j) x y = true -> i = j)
  /\ (TRAY_X <= x < TRAY_X + TRAY_W)%Z
  /\ ((y < SCREEN_H)%Z -> i < 8).
Proof.
  intros H. split; [intros j Hj; by eapply tray_cell_disjoint|].
  by apply tray_cell_bounds.
Qed.

Lemma tray_cells_in_window_witness :
  collidepoint (tray_cell 7) 200 600 = true
  /\ (forall j, collidepoint (tray_cell j) 200 600 = true -> 7 = j)
  /\ (TRAY_X <= 200 < TRAY_X + TRAY_W)%Z
  /\ ((600 < SCREEN_H)%Z -> 7 < 8).
Proof. split; [reflexivity|]. apply (tray_cells_in_window 7 200 600). reflexivity. Defined.

(** ** Between drags the tray is tidy *)

(** Every piece after a layout: in the cell of its rank if it is unplaced and
    in the display order, untouched otherwise. *)
Lemma layout_tray_pieces g g' :
  layout_tray g = Ret g' -> NoDup (shuffled_tray g) ->
  (exists ps', g' = set_pieces g ps' /\ key <$> ps' = key <$> pieces g)
  /\ forall r p',
       pieces g' !! r = Some p' ->
       (exists i, unplaced_refs (pieces g) (shuffled_tray g) !! i = Some r
                  /\ Piece.rect p' = tray_cell i
                  /\ surf_w (Piece.image p') = tile_w
                  /\ surf_h (Piece.image p') = tile_w)
       \/ ((r ∉ unplaced_refs (pieces g) (shuffled_tray g)) /\ pieces g !! r = Some p').
Proof.
  intros H Hnd. split.
  - unfold layout_tray in H. inv_ret. subst g'. exists a0. split; [done|].
    by eapply layout_loop_keeps.
  - intros r p' Hp'.
    destruct (decide (r ∈ unplaced_refs (pieces g) (shuffled_tray g))) as [Hin|Hout].
    + left. apply list_elem_of_lookup in Hin as [i Hi]. exists i. split; [done|].
      destruct (layout_tray_laid g g' i r H Hnd Hi) as (p'' & E & ?). congruence.
    + right. split; [done|]. unfold layout_tray in H. inv_ret. subst g'.
      apply unplaced_of_Ret in Ha as [_ ->].
      destruct (layout_loop_keeps _ _ _ _ _ Ha0) as [_ Hkeep].
      simpl in Hp'. by rewrite <- Hkeep.
Qed.

Lemma tidy_ext g g' :
  pieces g' = pieces g -> shuffled_tray g' = shuffled_tray g -> tidy g -> tidy g'.
Proof. unfold tidy. by intros -> ->. Qed.

Lemma layout_tray_tidy g g' :
  layout_tray g = Ret g' -> NoDup (shuffled_tray g) -> tidy g'.
Proof.
  intros H Hnd i r Hi.
  destruct (layout_tray_pieces g g' H Hnd) as [(ps' & -> & Hk) _].
  eapply layout_tray_cell; [exact H|done|].
  simpl in Hi. by rewrite <- (unplaced_refs_key ps' (pieces g)).
Qed.

Lemma released_tidy g g1 ps' :
  well_formed g -> shuffled_tray g1 = shuffled_tray g ->
  layout_tray (set_held g1 None (drag_offset g1))
  = Ret (set_pieces (set_held g1 None (drag_offset g1)) ps') ->
  tidy (released g1 ps').
Proof.
  intros Hwf Ht Hlay.
  destruct (released_fields g1 ps') as (_ & Rp & _ & Rt).
  eapply tidy_ext; [| |eapply layout_tray_tidy; [exact Hlay|]].
  - by rewrite Rp.
  - by rewrite Rt.
  - simpl. rewrite Ht. by apply wf_tray_NoDup.
Qed.

Lemma drop_case_tray g h x y g1 :
  ((exists slot p tile,
       slots g !! h = Some slot /\ accepts slot x y = true
       /\ pieces g !! h = Some p /\ g1 = dropped g h slot p tile)
   \/ ((forall slot, slots g !! h = Some slot -> accepts slot x y = false) /\ g1 = g)) ->
  shuffled_tray g1 = shuffled_tray g /\ map_tiles g1 = map_tiles g
  /\ complete g1 = complete g /\ win_timer g1 = win_timer g.
Proof. by intros [(slot & p & tile & _ & _ & _ & ->)|[_ ->]]. Qed.

Lemma idle_tidy g : reachable g -> held_piece g = None -> tidy g.
Proof.
  revert g. apply (reachable_induction (fun g => held_piece g = None -> tidy g)).
  - intros rand g g' Hinv H _.
    destruct (new_game_spec rand g (con_wf _ (inv_consistent _ Hinv)))
      as (ps1 & ps' & _ & _ & Hlay & _ & E & Hinv').
    rewrite E in H. injection H as <-.
    eapply layout_tray_tidy; [exact Hlay|].
    apply (wf_tray_NoDup _ (con_wf _ (inv_consistent _ Hinv'))).
  - intros g event g' Hinv IH H Hidle.
    destruct (handle_event_cases g event g' Hinv H)
      as [[->| ->]|[(x & y & i & p & tile & _ & _ & _ & _ & _ & _ & _ & ->)
         |[(pos & h & p & _ & Hh & _ & _ & ->)
          |(x & y & h & g1 & ps' & _ & _ & _ & Hcase & _ & Hlay & ->)]]].
    + by apply IH.
    + by apply IH.
    + done.
    + simpl in Hidle. congruence.
    + apply (released_tidy g); [apply Hinv|by eapply drop_case_tray|done].
  - intros g ms Hinv IH Hidle. unfold advance in *. destruct (complete g); auto.
Qed.

(** X6.  Whenever no piece is being dragged, every unplaced piece sits in
    the tray cell of its rank in the display order, so no two unplaced pieces
    contain the same point: a pick-up that starts a drag is never ambiguous. *)
Theorem idle_tray_is_tidy (g : Game) (x y : Z) (a b : nat) :
  reachable g -> held_piece g = None ->
  tidy g
  /\ (hits (pieces g) x y a = true -> hits (pieces g) x y b = true -> a = b).
Proof.
  intros Hreach Hidle. pose proof (idle_tidy g Hreach Hidle) as Htidy.
  split; [done|].
  pose proof (con_wf _ (inv_consistent _ (reachable_invariant g Hreach))) as Hwf.
  assert (forall c, hits (pieces g) x y c = true ->
            exists i, unplaced_refs (pieces g) (shuffled_tray g) !! i = Some c
                      /\ collidepoint (tray_cell i) x y = true) as Hcell.
  { intros c [Hu Hcol]%hits_iff.
    assert (c ∈ unplaced_refs (pieces g) (shuffled_tray g)) as Hin.
    { apply list_elem_of_filter. split; [done|]. apply (wf_tray_elem g Hwf).
      apply is_unplaced_lookup in Hu as (p & Hp & _).
      rewrite <- (wf_length_pieces g Hwf). by eapply lookup_lt_Some. }
    apply list_elem_of_lookup in Hin as [i Hi]. exists i. split; [done|].
    pose proof (Htidy i c Hi) as Hr. unfold rect_at in Hcol.
    destruct (pieces g !! c) as [p|]; [|done]. simpl in *. congruence. }
  intros (i & Hi & Hci)%Hcell (j & Hj & Hcj)%Hcell.
  assert (i = j) as -> by by eapply tray_cell_disjoint. congruence.
Qed.

Lemma idle_tray_is_tidy_witness :
  held_piece one_placed_game = None
  /\ tidy one_placed_game
  /\ (hits (pieces one_placed_game) 30 90 2 = true ->
      hits (pieces one_placed_game) 30 90 2 = true -> 2 = 2).
Proof.
  split; [reflexivity|].
  apply (idle_tray_is_tidy one_placed_game 30 90 2 2); [|reflexivity].
  exists demo_picture, demo_rand0, demo_rand1, one_placed_inputs. reflexivity.
Defined.

Lemma tidy_hit_cell g x y c :
  well_formed g -> tidy g -> hits (pieces g) x y c = true ->
  exists i, unplaced_refs (pieces g) (shuffled_tray g) !! i = Some c
            /\ collidepoint (tray_cell i) x y = true.
Proof.
  intros Hwf Htidy [Hu Hcol]%hits_iff.
  assert (c ∈ unplaced_refs (pieces g) (shuffled_tray g)) as Hin.
  { apply list_elem_of_filter. split; [done|]. apply (wf_tray_elem g Hwf).
    apply is_unplaced_lookup in Hu as (p & Hp & _).
    rewrite <- (wf_length_pieces g Hwf). by eapply lookup_lt_Some. }
  apply list_elem_of_lookup in Hin as [i Hi]. exists i. split; [done|].
  pose proof (Htidy i c Hi) as Hr. unfold rect_at in Hcol.
  destruct (pieces g !! c) as [p|]; [|done]. simpl in *. congruence.
Qed.

(** X7.  A click inside the window that starts a drag can only take one of
    the first eight unplaced pieces of the display order: the ninth tray cell
    lies below the window, so in a new game the last piece of the display
    order cannot be picked up until another piece has been placed. *)
Theorem pick_up_reaches_first_eight (g g' : Game) (x y : Z) (r : nat) :
  reachable g -> held_piece g = None -> on_screen x y ->
  handle_event g (MOUSEBUTTONDOWN (x, y) 1) = Ret g' ->
  held_piece g' = Some r ->
  exists i, i < 8 /\ unplaced_refs (pieces g) (shuffled_tray g) !! i = Some r.
Proof.
  intros Hreach Hidle [_ Hy] H Hr.
  pose proof (reachable_invariant g Hreach) as Hinv.
  pose proof (con_wf _ (inv_consistent _ Hinv)) as Hwf.
  destruct (handle_event_cases g _ g' Hinv H)
    as [[->| ->]|[(x' & y' & i & p & tile & [= <- <-] & _ & Hlast & _ & _ & _ & _ & ->)
       |[(pos & h & p & [=] & _)|(x' & y' & h & g1 & ps' & [=] & _)]]].
  1, 2: simpl in Hr; congruence.
  simpl in Hr. injection Hr as ->.
  apply last_Some_elem_of, list_elem_of_filter in Hlast as [Hhit _].
  destruct (tidy_hit_cell g x y r Hwf (idle_tidy g Hreach Hidle) Hhit) as (i & Hi & Hc).
  exists i. split; [|done].
  apply (proj2 (tray_cell_bounds i x y Hc)). apply Hy.
Qed.

Lemma pick_up_reaches_first_eight_witness :
  held_piece one_placed_game = None /\ on_screen 30 90
  /\ exists g',
       handle_event one_placed_game (MOUSEBUTTONDOWN (30, 90)%Z 1) = Ret g'
       /\ held_piece g' = Some 2
       /\ exists i, i < 8
                    /\ unplaced_refs (pieces one_placed_game)
                                     (shuffled_tray one_placed_game) !! i = Some 2.
Proof.
  split; [reflexivity|]. split; [by vm_compute|].
  eexists. split; [reflexivity|]. split; [reflexivity|].
  eapply (pick_up_reaches_first_eight one_placed_game _ 30 90 2).
  - exists demo_picture, demo_rand0, demo_rand1, one_placed_inputs. reflexivity.
  - reflexivity.
  - by vm_compute.
  - reflexivity.
  - reflexivity.
Defined.

(** ** Slots and placed pieces *)

(** X8.  Slot [i] keeps home index [i] and its board rectangle for the whole
    run, and it is filled exactly when piece [i] is placed. *)
Theorem slot_filled_iff_piece_placed (g : Game) (i : nat) (slot : Slot.t) (piece : Piece.t) :
  reachable g -> slots g !! i = Some slot -> pieces g !! i = Some piece ->
  Slot.index slot = i /\ Piece.index piece = i
  /\ Slot.rect slot = mkRect (BOARD_X + Z.of_nat (i mod COLS) * TILE_SIZE)
                             (BOARD_Y + Z.of_nat (i / COLS) * TILE_SIZE)
                             TILE_SIZE TILE_SIZE
  /\ Slot.filled slot = Piece.placed piece.
Proof.
  intros Hinv%reachable_invariant Hs Hp.
  pose proof (inv_consistent _ Hinv) as Hc. pose proof (con_wf _ Hc) as Hwf.
  destruct (wf_slot g Hwf i slot Hs) as (_ & Hi & Hr).
  split; [done|]. split; [by eapply wf_piece_index|]. split; [by rewrite Hr|].
  pose proof (con_fill _ Hc) as Hfill.
  assert ((Slot.filled <$> slots g) !! i = Some (Slot.filled slot)) as E1.
  { by rewrite list_lookup_fmap, Hs. }
  rewrite Hfill, list_lookup_fmap, Hp in E1. simpl in E1. congruence.
Qed.

Lemma slot_filled_iff_piece_placed_witness :
  exists slot piece,
    slots demo_game !! 2 = Some slot /\ pieces demo_game !! 2 = Some piece
    /\ Slot.filled slot = Piece.placed piece /\ Slot.filled slot = true.
Proof.
  destruct (slots demo_game !! 2) as [slot|] eqn:Hs; [|discriminate Hs].
  destruct (pieces demo_game !! 2) as [piece|] eqn:Hp; [|discriminate Hp].
  exists slot, piece. split; [reflexivity|]. split; [reflexivity|].
  destruct (slot_filled_iff_piece_placed demo_game 2 slot piece) as (_ & _ & _ & E).
  - exists demo_picture, demo_rand0, demo_rand1, demo_inputs. reflexivity.
  - exact Hs.
  - exact Hp.
  - split; [exact E|]. vm_compute in Hs. injection Hs as <-. reflexivity.
Defined.

Lemma layout_keeps_placed g1 ps' i p :
  well_formed g1 ->
  layout_tray (set_held g1 None (drag_offset g1))
  = Ret (set_pieces (set_held g1 None (drag_offset g1)) ps') ->
  ps' !! i = Some p -> Piece.placed p = true ->
  pieces g1 !! i = Some p.
Proof.
  intros Hwf Hlay Hp Hpl.
  destruct (layout_tray_pieces _ _ Hlay) as [(ps'' & E & Hk) Hcases].
  { by apply (wf_tray_NoDup g1). }
  destruct (Hcases i p Hp) as [(j & Hj & _)|[_ H]]; [|exact H].
  exfalso. cbn [set_held pieces shuffled_tray] in *.
  assert (ps'' = ps') as -> by (by injection E).
  apply list_elem_of_lookup_2, list_elem_of_filter in Hj as [Hu _].
  apply (is_unplaced_key ps' (pieces g1)) in Hu; [|done].
  apply is_unplaced_lookup in Hu as (p' & Hp' & Hpl'). congruence.
Qed.

Lemma layout_keeps_placed_rev g1 ps' i p :
  well_formed g1 ->
  layout_tray (set_held g1 None (drag_offset g1))
  = Ret (set_pieces (set_held g1 None (drag_offset g1)) ps') ->
  pieces g1 !! i = Some p -> Piece.placed p = true ->
  ps' !! i = Some p.
Proof.
  intros Hwf Hlay Hp Hpl.
  destruct (layout_tray_pieces _ _ Hlay) as [(ps'' & E & Hk) _].
  { by apply (wf_tray_NoDup g1). }
  cbn [set_held pieces] in Hk. assert (ps'' = ps') as -> by (by injection E).
  destruct (key_lookup (pieces g1) ps' i p (eq_sym Hk) Hp) as (q & Hq & _ & Hqpl).
  rewrite Hq. f_equal. symmetry.
  assert (pieces g1 !! i = Some q) as Hq'.
  { eapply layout_keeps_placed; [done|exact Hlay|exact Hq|congruence]. }
  congruence.
Qed.

Lemma wf_dropped g h slot p tile :
  consistent g -> slots g !! h = Some slot -> pieces g !! h = Some p ->
  well_formed (dropped g h slot p tile).
Proof.
  intros Hc Hs Hp.
  destruct (con_wf _ (consistent_dropped g h slot p tile Hc Hs Hp)). by split.
Qed.

Lemma event_keeps_placed g event g' i p :
  invariant g -> handle_event g event = Ret g' ->
  pieces g !! i = Some p -> Piece.placed p = true ->
  pieces g' !! i = Some p.
Proof.
  intros Hinv H Hp Hpl. pose proof (inv_consistent _ Hinv) as Hc.
  pose proof (con_wf _ Hc) as Hwf.
  destruct (handle_event_cases g event g' Hinv H)
    as [[->| ->]|[(x & y & i0 & p0 & tile & _ & _ & _ & Hp0 & _ & Hpl0 & _ & ->)
       |[(pos & h & p0 & _ & _ & Hp0 & Hpl0 & ->)
        |(x & y & h & g1 & ps' & _ & Hh & _ & Hcase & _ & Hlay & ->)]]].
  - done.
  - done.
  - simpl. rewrite list_lookup_insert_ne; [done|]. intros ->. congruence.
  - simpl. rewrite list_lookup_insert_ne; [done|]. intros ->. congruence.
  - destruct (released_fields g1 ps') as (_ & -> & _ & _).
    destruct (held_in_range g h Hc Hh) as (ph & Hph & Hplh & _).
    assert (i ≠ h) as Hne by (intros ->; congruence).
    destruct Hcase as [(slot & q & tile & Hs & _ & Hq & ->)|[_ ->]].
    + eapply layout_keeps_placed_rev; [|exact Hlay| |done].
      * by apply wf_dropped.
      * simpl. by rewrite list_lookup_insert_ne.
    + by eapply layout_keeps_placed_rev; [|exact Hlay|..].
Qed.

Lemma placed_on_slot g :
  reachable g ->
  forall i p, pieces g !! i = Some p -> Piece.placed p = true ->
              Piece.rect p = Slot.rect (Slot.init i)
              /\ surf_w (Piece.image p) = TILE_SIZE
              /\ surf_h (Piece.image p) = TILE_SIZE.
Proof.
  revert g. apply (reachable_induction (fun g => forall i p,
    pieces g !! i = Some p -> Piece.placed p = true ->
    Piece.rect p = Slot.rect (Slot.init i)
    /\ surf_w (Piece.image p) = TILE_SIZE /\ surf_h (Piece.image p) = TILE_SIZE)).
  - intros rand g g' Hinv H i p Hp Hpl. exfalso.
    destruct (new_game_spec rand g (con_wf _ (inv_consistent _ Hinv)))
      as (ps1 & ps' & _ & Hall & _ & Hk & E & _).
    rewrite E in H. injection H as <-. simpl in Hp.
    destruct (key_lookup ps' ps1 i p Hk Hp) as (q & Hq & _ & Hqpl).
    pose proof (Forall_lookup_1 _ _ _ _ Hall Hq) as [Hf _]. simpl in Hf. congruence.
  - intros g event g' Hinv IH H i p Hp Hpl.
    pose proof (inv_consistent _ Hinv) as Hc. pose proof (con_wf _ Hc) as Hwf.
    destruct (handle_event_cases g event g' Hinv H)
      as [[->| ->]|[(x & y & i0 & p0 & tile & _ & _ & _ & Hp0 & _ & Hpl0 & _ & ->)
         |[(pos & h & p0 & _ & _ & Hp0 & Hpl0 & ->)
          |(x & y & h & g1 & ps' & _ & Hh & _ & Hcase & _ & Hlay & ->)]]].
    + by apply IH.
    + by apply IH.
    + simpl in Hp. destruct (decide (i0 = i)) as [->|Hne].
      * rewrite list_lookup_insert_eq in Hp by by eapply lookup_lt_Some.
        injection Hp as <-. simpl in Hpl. congruence.
      * rewrite list_lookup_insert_ne in Hp by done. by apply IH.
    + simpl in Hp. destruct (decide (h = i)) as [->|Hne].
      * rewrite list_lookup_insert_eq in Hp by by eapply lookup_lt_Some.
        injection Hp as <-. simpl in Hpl. congruence.
      * rewrite list_lookup_insert_ne in Hp by done. by apply IH.
    + destruct (released_fields g1 ps') as (_ & Rp & _ & _). rewrite Rp in Hp.
      destruct Hcase as [(slot & q & tile & Hs & _ & Hq & ->)|[_ ->]].
      * assert (pieces (dropped g h slot q tile) !! i = Some p) as Hd.
        { eapply layout_keeps_placed; [|exact Hlay|done|done]. by apply wf_dropped. }
        simpl in Hd. destruct (decide (h = i)) as [->|Hne].
        -- rewrite list_lookup_insert_eq in Hd by by eapply lookup_lt_Some.
           injection Hd as <-. simpl.
           by destruct (wf_slot g Hwf i slot Hs) as (_ & _ & ->).
        -- rewrite list_lookup_insert_ne in Hd by done. by apply IH.
      * apply IH; [|done]. by eapply layout_keeps_placed; [|exact Hlay|..].
  - intros g ms Hinv IH. unfold advance. by destruct (complete g).
Qed.

(** X9.  A placed piece sits exactly on the rectangle of its home slot, with
    its image at full tile size, and no event changes it any more (only a
    restart resets it). *)
Theorem placed_piece_stays_on_its_slot (g : Game) (i : nat) (p : Piece.t) :
  reachable g -> pieces g !! i = Some p -> Piece.placed p = true ->
  Piece.rect p = Slot.rect (Slot.init i)
  /\ surf_w (Piece.image p) = TILE_SIZE /\ surf_h (Piece.image p) = TILE_SIZE
  /\ forall event g', handle_event g event = Ret g' -> pieces g' !! i = Some p.
Proof.
  intros Hreach Hp Hpl.
  destruct (placed_on_slot g Hreach i p Hp Hpl) as (Hr & Hw & Hh).
  split; [done|]. split; [done|]. split; [done|].
  intros event g' H. eapply event_keeps_placed; [|exact H|done|done].
  by apply reachable_invariant.
Qed.

Lemma placed_piece_stays_on_its_slot_witness :
  exists p,
    pieces demo_game !! 2 = Some p /\ Piece.placed p = true
    /\ Piece.rect p = Slot.rect (Slot.init 2).
Proof.
  destruct (pieces demo_game !! 2) as [p|] eqn:Hp; [|discriminate Hp].
  assert (Piece.placed p = true) as Hpl.
  { vm_compute in Hp. injection Hp as <-. reflexivity. }
  exists p. split; [reflexivity|]. split; [exact Hpl|].
  apply (placed_piece_stays_on_its_slot demo_game 2 p); [|exact Hp|exact Hpl].
  exists demo_picture, demo_rand0, demo_rand1, demo_inputs. reflexivity.
Defined.

(** ** Dragging *)

Lemma piece_sized_cell (p : Piece.t) (i : nat) :
  Piece.rect p = tray_cell i -> piece_sized p.
Proof. intros H. unfold piece_sized. rewrite H. simpl. auto. Qed.

Lemma layout_keeps_sized g1 ps' :
  well_formed g1 -> Forall piece_sized (pieces g1) ->
  layout_tray (set_held g1 None (drag_offset g1))
  = Ret (set_pieces (set_held g1 None (drag_offset g1)) ps') ->
  Forall piece_sized ps'.
Proof.
  intros Hwf Hall Hlay. apply Forall_lookup. intros r p Hp.
  destruct (layout_tray_pieces _ _ Hlay) as [_ Hcases].
  { by apply (wf_tray_NoDup g1). }
  destruct (Hcases r p Hp) as [(i & _ & Hr & _)|[_ H]].
  - by eapply piece_sized_cell.
  - simpl in H. apply (Forall_lookup_1 _ _ _ _ Hall H).
Qed.

Lemma reachable_drag_ok g : reachable g -> drag_ok g.
Proof.
  revert g. apply (reachable_induction drag_ok).
  - intros rand g g' Hinv H.
    destruct (new_game_spec rand g (con_wf _ (inv_consistent _ Hinv)))
      as (ps1 & ps' & _ & Hall & Hlay & Hk & E & Hinv').
    rewrite E in H. injection H as <-. split; [|done]. simpl.
    pose proof (con_wf _ (inv_consistent _ Hinv')) as Hwf'.
    apply Forall_lookup. intros r p Hp.
    destruct (layout_tray_pieces _ _ Hlay) as [_ Hcases].
    { apply (wf_tray_NoDup _ Hwf'). }
    destruct (Hcases r p Hp) as [(i & _ & Hr & _)|[Hout H]].
    + by eapply piece_sized_cell.
    + exfalso. apply Hout. simpl in *. apply list_elem_of_filter. split.
      * apply is_unplaced_lookup. exists p. split; [done|].
        pose proof (Forall_lookup_1 _ _ _ _ Hall H) as [Hf _]. exact Hf.
      * apply (wf_tray_elem _ Hwf').
        rewrite <- (wf_length_pieces _ Hwf'). simpl. by eapply lookup_lt_Some.
  - intros g event g' Hinv [Hsz Hheld] H.
    pose proof (inv_consistent _ Hinv) as Hc. pose proof (con_wf _ Hc) as Hwf.
    destruct (handle_event_cases g event g' Hinv H)
      as [[->| ->]|[(x & y & i0 & p0 & tile & _ & _ & _ & Hp0 & _ & Hpl0 & Hcol & ->)
         |[(pos & h & p0 & _ & Hh & Hp0 & Hpl0 & ->)
          |(x & y & h & g1 & ps' & _ & Hh & _ & Hcase & _ & Hlay & ->)]]].
    + done.
    + done.
    + pose proof (Forall_lookup_1 _ _ _ _ Hsz Hp0) as [Hsq Hw].
      split; simpl.
      * apply Forall_insert; [done|]. split; simpl; auto.
      * intros h [= <-]. eexists. split.
        { apply list_lookup_insert_eq. by eapply lookup_lt_Some. }
        simpl. split; [done|]. split; [done|].
        unfold collidepoint in Hcol.
        rewrite !andb_true_iff, !Z.leb_le, !Z.ltb_lt in Hcol.
        assert (rw (Piece.rect p0) <= TILE_SIZE)%Z
          by (destruct Hw as [-> | ->]; by vm_compute).
        assert (rh (Piece.rect p0) <= TILE_SIZE)%Z by (rewrite <- Hsq; done).
        lia.
    + destruct (Hheld h Hh) as (p & Hp & Hw & Hhh & Hox & Hoy).
      assert (p = p0) as -> by congruence.
      split; simpl.
      * apply Forall_insert; [done|]. split; simpl; [congruence|auto].
      * intros h' Hh'. assert (h' = h) as -> by congruence.
        eexists. split.
        { apply list_lookup_insert_eq. by eapply lookup_lt_Some. }
        simpl. done.
    + destruct (released_fields g1 ps') as (Rh & Rp & _ & _).
      split; [|intros h'; rewrite Rh; done]. rewrite Rp.
      destruct Hcase as [(slot & q & tile & Hs & _ & Hq & ->)|[_ ->]].
      * eapply layout_keeps_sized; [by apply wf_dropped| |exact Hlay].
        simpl. apply Forall_insert; [done|].
        destruct (wf_slot g Hwf h slot Hs) as (_ & _ & Hr).
        split; simpl; rewrite Hr; simpl; auto.
      * by eapply layout_keeps_sized; [| |exact Hlay].
  - intros g ms Hinv H. unfold advance. by destruct (complete g).
Qed.

(** X10.  While a piece is dragged it is a full tile in size and always lies
    under the pointer: after every pointer move, to a position the window
    system can report, its rectangle starts at the pointer position minus
    the offset recorded at pick-up, and contains the pointer. *)
Theorem held_piece_follows_pointer (g : Game) (h : nat) (pos : Z * Z) :
  played g -> held_piece g = Some h -> pointer_ok pos ->
  exists g' p,
    handle_event g (MOUSEMOTION pos) = Ret g'
    /\ held_piece g' = Some h /\ drag_offset g' = drag_offset g
    /\ pieces g' !! h = Some p
    /\ Piece.rect p = mkRect (fst pos - fst (drag_offset g))
                             (snd pos - snd (drag_offset g)) TILE_SIZE TILE_SIZE
    /\ collidepoint (Piece.rect p) (fst pos) (snd pos) = true.
Proof.
  intros Hreach%played_reachable Hh _.
  destruct (reachable_drag_ok g Hreach) as [_ Hheld].
  destruct (Hheld h Hh) as (p & Hp & Hw & Hhh & Hox & Hoy).
  simpl. unfold pointer_motion. rewrite Hh. apply idx_Ret in Hp as Hidx.
  rewrite Hidx. simpl. eexists _, _. split; [done|]. simpl.
  split; [done|]. split; [done|]. split.
  { apply list_lookup_insert_eq. by eapply lookup_lt_Some. }
  simpl. rewrite Hw, Hhh. split; [done|].
  unfold collidepoint. simpl.
  rewrite !andb_true_iff, !Z.leb_le, !Z.ltb_lt. lia.
Qed.

Lemma held_piece_follows_pointer_witness :
  held_piece demo_game = Some 5
  /\ exists g' p,
       handle_event demo_game (MOUSEMOTION (700, 50)%Z) = Ret g'
       /\ pieces g' !! 5 = Some p
       /\ collidepoint (Piece.rect p) 700 50 = true.
Proof.
  split; [reflexivity|].
  destruct (held_piece_follows_pointer demo_game 5 (700, 50)%Z)
    as (g' & p & Hev & _ & _ & Hp & _ & Hcol).
  - played_by demo_inputs.
  - reflexivity.
  - unfold pointer_ok. simpl. lia.
  - exists g', p. split; [exact Hev|]. split; [exact Hp|exact Hcol].
Defined.

(** X11.  Picking a piece up and moving the pointer moves the piece by the
    same displacement: a piece at [(px, py)] picked up at [(x0, y0)] and
    dragged to [(x, y)], both positions the window system can report, is at
    [(px + x - x0, py + y - y0)], full tile in size, and no placed or filled
    flag has changed. *)
Theorem drag_moves_piece_with_pointer (g : Game) (h : nat) (p : Piece.t)
    (x0 y0 x y : Z) :
  played g -> complete g = false ->
  pointer_ok (x0, y0) -> pointer_ok (x, y) ->
  last (filter (fun i => hits (pieces g) x0 y0 i = true) (shuffled_tray g)) = Some h ->
  pieces g !! h = Some p ->
  exists g' p',
    run g [Ev (MOUSEBUTTONDOWN (x0, y0) 1); Ev (MOUSEMOTION (x, y))] = Ret g'
    /\ held_piece g' = Some h
    /\ pieces g' !! h = Some p'
    /\ Piece.rect p' = mkRect (rx (Piece.rect p) + (x - x0)) (ry (Piece.rect p) + (y - y0))
                              TILE_SIZE TILE_SIZE
    /\ Piece.placed <$> pieces g' = Piece.placed <$> pieces g
    /\ slots g' = slots g.
Proof.
  intros Hinv%played_reachable%reachable_invariant Hcomp _ _ Hlast Hp.
  pose proof (con_wf _ (inv_consistent _ Hinv)) as Hwf.
  pose proof (pointer_down_spec g x0 y0 Hwf Hcomp) as Hspec.
  rewrite Hlast in Hspec. destruct Hspec as (p0 & tile & Hp0 & _ & _ & _ & E).
  assert (p0 = p) as -> by congruence.
  assert (h < length (pieces g)) as Hlt by by eapply lookup_lt_Some.
  cbn [run step handle_event]. rewrite Z.eqb_refl, E. cbn [bind].
  unfold pointer_motion. cbn [pick set_held set_pieces held_piece pieces drag_offset].
  unfold idx. rewrite list_lookup_insert_eq by done. cbn [bind].
  eexists _, _. split; [reflexivity|]. cbn [held_piece pieces slots set_pieces].
  split; [done|]. rewrite list_insert_insert_eq. split.
  { by apply list_lookup_insert_eq. }
  cbn [Piece.rect picked fst snd rx ry rw rh]. split; [f_equal; lia|].
  split; [|done]. rewrite list_fmap_insert. cbn [Piece.placed picked].
  apply list_insert_id. by rewrite list_lookup_fmap, Hp.
Qed.

Lemma drag_moves_piece_with_pointer_witness :
  exists p g' p',
    pieces one_placed_game !! 2 = Some p
    /\ run one_placed_game [Ev (MOUSEBUTTONDOWN (30, 90)%Z 1); Ev (MOUSEMOTION (500, 300)%Z)]
       = Ret g'
    /\ pieces g' !! 2 = Some p'
    /\ Piece.rect p' = mkRect (rx (Piece.rect p) + (500 - 30))
                              (ry (Piece.rect p) + (300 - 90)) TILE_SIZE TILE_SIZE.
Proof.
  destruct (pieces one_placed_game !! 2) as [p|] eqn:Hp; [|discriminate Hp].
  destruct (drag_moves_piece_with_pointer one_placed_game 2 p 30 90 500 300)
    as (g' & p' & Hrun & _ & Hp' & Hr & _).
  - played_by one_placed_inputs.
  - reflexivity.
  - unfold pointer_ok. simpl. lia.
  - unfold pointer_ok. simpl. lia.
  - reflexivity.
  - exact Hp.
  - exists p, g', p'. split; [reflexivity|]. split; [exact Hrun|]. split; [exact Hp'|exact Hr].
Defined.

(** ** The win timer, the overlay and the tray label *)

(** An event leaves [complete] and the timer alone, unless it is the drop
    that completes the puzzle, which starts the timer at zero. *)
Lemma handle_event_win g event g' :
  invariant g -> handle_event g event = Ret g' ->
  (complete g' = complete g /\ win_timer g' = win_timer g)
  \/ (complete g = false /\ complete g' = true /\ win_timer g' = 0%Z).
Proof.
  intros Hinv H.
  destruct (handle_event_cases g event g' Hinv H)
    as [[->| ->]|[(x & y & i0 & p0 & tile & _ & _ & _ & _ & _ & _ & _ & ->)
       |[(pos & h & p0 & _ & _ & _ & _ & ->)
        |(x & y & h & g1 & ps' & _ & _ & Hcomp & Hcase & _ & _ & ->)]]];
    try (by left).
  destruct (drop_case_tray g h x y g1 Hcase) as (_ & _ & Hc1 & Hw1).
  unfold released. destruct (forallb Slot.filled (slots g1)); simpl.
  - by right.
  - by left.
Qed.

Lemma timer_zero_until_complete g :
  reachable g -> complete g = false -> win_timer g = 0%Z.
Proof.
  revert g. apply (reachable_induction (fun g => complete g = false -> win_timer g = 0%Z)).
  - intros rand g g' Hinv H _.
    destruct (new_game_spec rand g (con_wf _ (inv_consistent _ Hinv)))
      as (ps1 & ps' & _ & _ & _ & _ & E & _).
    rewrite E in H. by injection H as <-.
  - intros g event g' Hinv IH H Hc.
    destruct (handle_event_win g event g' Hinv H) as [[E1 E2]|(_ & E & _)]; [|congruence].
    rewrite E2. apply IH. congruence.
  - intros g ms Hinv IH. unfold advance. destruct (complete g) eqn:E; [done|auto].
Qed.

Lemma timer_nonnegative f rand0 rand1 inputs g :
  Forall tick_ok inputs -> program f rand0 rand1 inputs = Ret g ->
  (0 <= win_timer g)%Z.
Proof.
  apply (program_induction (fun g => (0 <= win_timer g)%Z) tick_ok).
  - intros rand g0 g' Hinv H.
    destruct (new_game_spec rand g0 (con_wf _ (inv_consistent _ Hinv)))
      as (ps1 & ps' & _ & _ & _ & _ & E & _).
    rewrite E in H. by injection H as <-.
  - intros g0 event g' Hinv IH _ H.
    destruct (handle_event_win g0 event g' Hinv H) as [[_ ->]|(_ & _ & ->)]; [done|lia].
  - intros g0 ms rand Hinv IH Hms. simpl in Hms. unfold advance.
    destruct (complete g0); simpl; lia.
Qed.

Lemma played_timer g : played g -> (0 <= win_timer g)%Z.
Proof.
  intros (f & rand0 & rand1 & inputs & Hok & H).
  apply (timer_nonnegative f rand0 rand1 inputs g); [|done].
  eapply Forall_impl; [exact Hok|]. apply input_ok_tick.
Qed.

Lemma solved_inputs_ticks : Forall tick_ok solved_inputs.
Proof.
  unfold solved_inputs. apply Forall_app. split.
  - apply Forall_forall. intros i Hi. apply list_elem_of_In, in_flat_map in Hi.
    destruct Hi as (k & _ & Hi). simpl in Hi.
    destruct Hi as [<-|[<-|[]]]; exact I.
  - repeat constructor. simpl. lia.
Qed.

(** X12.  The win timer is zero in every state in which the puzzle is not
    complete, and in a run whose frame durations are not negative it is never
    negative; an event changes it only by starting it at zero with the drop
    that completes the puzzle. *)
Theorem win_timer_counts_from_completion (f : ImageFile) (rand0 rand1 : nat -> nat)
    (inputs : list Input) (g : Game) :
  Forall tick_ok inputs -> program f rand0 rand1 inputs = Ret g ->
  (0 <= win_timer g)%Z
  /\ (complete g = false -> win_timer g = 0%Z)
  /\ (forall event g',
        handle_event g event = Ret g' ->
        (complete g' = complete g /\ win_timer g' = win_timer g)
        \/ (complete g = false /\ complete g' = true /\ win_timer g' = 0%Z)).
Proof.
  intros Hticks H.
  assert (reachable g) as Hreach by (by exists f, rand0, rand1, inputs).
  split; [by eapply timer_nonnegative|]. split; [by apply timer_zero_until_complete|].
  intros event g' Hev. eapply handle_event_win; [|exact Hev].
  by apply reachable_invariant.
Qed.

Lemma win_timer_counts_from_completion_witness :
  (0 <= win_timer solved_game)%Z /\ win_timer solved_game = 16%Z
  /\ (complete demo_game = false -> win_timer demo_game = 0%Z).
Proof.
  split; [|split; [reflexivity|]].
  - apply (win_timer_counts_from_completion demo_picture demo_rand0 demo_rand1
             solved_inputs solved_game); [|reflexivity].
    apply solved_inputs_ticks.
  - apply (win_timer_counts_from_completion demo_picture demo_rand0 demo_rand1
             demo_inputs demo_game); [|reflexivity].
    repeat constructor.
Defined.

Lemma overlay_alpha_bounds (w : Z) :
  (0 <= w)%Z ->
  (0 <= overlay_alpha w <= 200)%Z
  /\ (overlay_alpha w = 200%Z <-> (600 <= w)%Z)
  /\ (message_shown w = true -> (100 <= overlay_alpha w)%Z).
Proof.
  intros Hw. unfold overlay_alpha, message_shown.
  pose proof (Z.mul_div_le w 3 ltac:(lia)) as H1.
  pose proof (Z.mul_succ_div_gt w 3 ltac:(lia)) as H2.
  rewrite Z.ltb_lt. lia.
Qed.

(** X13.  In a run whose frame durations are not negative, the overlay is
    painted exactly when the puzzle is complete, with an opacity between 0
    and 200 (a valid colour component) that is a third of the win timer
    capped at 200, reached at 600 ms; the message is painted only once the
    opacity is at least 100. *)
Theorem win_overlay_opacity (f : ImageFile) (rand0 rand1 : nat -> nat)
    (inputs : list Input) (g : Game) :
  Forall tick_ok inputs -> program f rand0 rand1 inputs = Ret g ->
  match win_overlay g with
  | Some (alpha, message) =>
      complete g = true
      /\ (0 <= alpha <= 200)%Z
      /\ (alpha = 200%Z <-> (600 <= win_timer g)%Z)
      /\ (message = true <-> (300 < win_timer g)%Z)
      /\ (message = true -> (100 <= alpha)%Z)
  | None => complete g = false
  end.
Proof.
  intros Hticks H. pose proof (timer_nonnegative _ _ _ _ _ Hticks H) as Hw.
  unfold win_overlay. destruct (complete g); [|done].
  destruct (overlay_alpha_bounds (win_timer g) Hw) as (Hb & H200 & Hmsg).
  split; [done|]. split; [done|]. split; [done|]. split; [|done].
  unfold message_shown. apply Z.ltb_lt.
Qed.

Lemma win_overlay_opacity_witness :
  exists alpha message,
    win_overlay solved_game = Some (alpha, message)
    /\ complete solved_game = true /\ (0 <= alpha <= 200)%Z.
Proof.
  pose proof (win_overlay_opacity demo_picture demo_rand0 demo_rand1
                solved_inputs solved_game solved_inputs_ticks eq_refl) as H.
  destruct (win_overlay solved_game) as [[alpha message]|]; [|discriminate H].
  exists alpha, message. split; [reflexivity|].
  destruct H as (Hc & Hb & _). split; [exact Hc|exact Hb].
Defined.

Lemma length_filter_zero {A : Type} (P : A -> Prop) `{!forall x, Decision (P x)}
    (l : list A) :
  length (filter P l) = 0 <-> Forall (fun x => ¬ P x) l.
Proof.
  split.
  - intros Hnil%nil_length_inv. apply Forall_forall. intros x Hx HP.
    by eapply filter_nil_not_elem_of.
  - intros Hall. by rewrite filter_none.
Qed.

Lemma length_filter_split {A : Type} (P : A -> Prop) `{!forall x, Decision (P x)}
    (l : list A) :
  length (filter P l) + length (filter (fun x => ¬ P x) l) = length l.
Proof. rewrite <- length_app. by rewrite filter_app_complement. Qed.

(** X14.  The number in the tray label and the number of filled slots add up
    to [COLS * ROWS], and the label reads zero exactly when the puzzle is
    complete. *)
Theorem remaining_counts_unfilled_slots (g : Game) :
  reachable g ->
  remaining g + length (filter (fun slot => Slot.filled slot = true) (slots g))
  = COLS * ROWS
  /\ (remaining g = 0 <-> complete g = true).
Proof.
  intros Hinv%reachable_invariant.
  pose proof (inv_consistent _ Hinv) as Hc. pose proof (con_wf _ Hc) as Hwf.
  pose proof (con_fill _ Hc) as Hfill.
  assert (length (filter (fun slot => Slot.filled slot = true) (slots g))
          = length (filter (fun p => Piece.placed p = true) (pieces g))) as ->.
  { pose proof (filter_fmap_comm Slot.filled (fun b : bool => b = true) (slots g)) as E1.
    pose proof (filter_fmap_comm Piece.placed (fun b : bool => b = true) (pieces g)) as E2.
    cbv beta in E1, E2.
    rewrite <- (length_fmap Slot.filled (filter _ (slots g))), <- E1.
    rewrite <- (length_fmap Piece.placed (filter _ (pieces g))), <- E2.
    by rewrite Hfill. }
  split.
  - unfold remaining. rewrite <- (wf_length_pieces g Hwf).
    rewrite <- (length_filter_split (fun p => Piece.placed p = false) (pieces g)).
    f_equal. f_equal. apply list_filter_iff. intros p.
    by destruct (Piece.placed p).
  - unfold remaining. rewrite length_filter_zero, (inv_complete _ Hinv).
    rewrite forallb_Forall.
    pose proof (Forall_fmap Slot.filled (fun b : bool => b = true) (slots g)) as E1.
    pose proof (Forall_fmap Piece.placed (fun b : bool => b = true) (pieces g)) as E2.
    unfold compose in E1, E2. rewrite <- E1, Hfill, E2.
    apply Forall_iff. intros p. by destruct (Piece.placed p).
Qed.

Lemma remaining_counts_unfilled_slots_witness :
  remaining demo_game = 6
  /\ remaining demo_game
     + length (filter (fun slot => Slot.filled slot = true) (slots demo_game))
     = COLS * ROWS.
Proof.
  split; [reflexivity|].
  apply (remaining_counts_unfilled_slots demo_game).
  exists demo_picture, demo_rand0, demo_rand1, demo_inputs. reflexivity.
Defined.

(** ** What a frame shows *)

Lemma draw_slots_spec ps ss :
  Forall (fun s => Slot.index s < length ps) ss ->
  draw_slots ps ss
  = Ret ((fun s => SlotBlit (Slot.index s) (Slot.rect s))
           <$> filter (fun s => Slot.filled s = true) ss).
Proof.
  induction ss as [|s ss IH]; intros Hin; simpl; [done|].
  apply Forall_cons_1 in Hin as [Hs Hin]. rewrite (IH Hin).
  destruct (Slot.filled s) eqn:Hf.
  - destruct (idx_lt _ _ Hs) as (p & _ & ->). simpl.
    rewrite filter_cons_True by done. done.
  - rewrite filter_cons_False by congruence. done.
Qed.

Lemma slot_indices g : well_formed g -> Slot.index <$> slots g = seq 0 (COLS * ROWS).
Proof.
  intros Hwf.
  transitivity (Slot.index <$> (reset_slot <$> slots g)).
  - rewrite <- list_fmap_compose. done.
  - rewrite (wf_slots g Hwf). done.
Qed.

Lemma filled_slots_are_placed_pieces g :
  consistent g ->
  Slot.index <$> filter (fun s => Slot.filled s = true) (slots g) = placed_pieces g.
Proof.
  intros Hc. pose proof (con_wf _ Hc) as Hwf.
  rewrite (placed_pieces_filter g Hwf), <- (slot_indices g Hwf), filter_fmap_comm.
  f_equal. apply filter_ext_in. intros s [i Hi]%list_elem_of_lookup.
  destruct (wf_slot g Hwf i s Hi) as (_ & -> & _).
  rewrite <- (list_lookup_fmap Piece.placed), <- (con_fill _ Hc), list_lookup_fmap, Hi.
  simpl. split; congruence.
Qed.

Lemma shown_placed_held_partition g :
  consistent g ->
  filter (shown (pieces g) (held_piece g)) (shuffled_tray g)
  ++ placed_pieces g ++ held_pieces g
  ≡ₚ seq 0 (COLS * ROWS).
Proof.
  intros Hc. pose proof (con_wf _ Hc) as Hwf.
  rewrite (wf_tray g Hwf), (placed_pieces_filter g Hwf), (held_pieces_filter g Hc).
  apply filter_partition3. intros x [_ Hx]%elem_of_seq.
  rewrite <- (wf_length_pieces g Hwf) in Hx.
  destruct (lookup_lt_is_Some_2 _ _ Hx) as [p Hp].
  unfold shown. rewrite is_unplaced_lookup, Hp. simpl.
  destruct (decide (held_piece g = Some x)) as [Hh|Hh].
  - right. right.
    pose proof (con_held _ Hc x Hh) as Hu. apply is_unplaced_lookup in Hu.
    destruct Hu as (p' & Hp' & Hpl). assert (p' = p) as -> by congruence.
    rewrite Hpl. split; [tauto|]. split; [congruence|done].
  - destruct (Piece.placed p) eqn:Hpl.
    + right. left. split; [|done]. intros [(p' & [= <-] & ?) _]. congruence.
    + left. split; [|split; [congruence|done]]. split; [eauto|done].
Qed.

(** X15.  In every state the game reaches on inputs it can receive, [draw]
    returns, and the images it paints are, in this order: the placed pieces
    at their slots, in slot order; then the unplaced pieces that are not
    held, in display order; then the held piece, if there is one.  That is
    every piece exactly once, each at its own current rectangle.  The win
    timer is not negative there, so the overlay colour [draw] builds from it
    is a valid one. *)
Theorem draw_paints_each_piece_once (g : Game) :
  played g ->
  exists blits,
    draw g = Ret blits
    /\ blits
       = ((fun i => SlotBlit i (Slot.rect (Slot.init i)))
            <$> filter (fun i => Piece.placed <$> pieces g !! i = Some true)
                       (seq 0 (COLS * ROWS)))
         ++ ((fun i => PieceBlit i (rect_at (pieces g) i) false)
               <$> filter (shown (pieces g) (held_piece g)) (shuffled_tray g))
         ++ match held_piece g with
            | Some h => [PieceBlit h (rect_at (pieces g) h) true]
            | None => []
            end
    /\ blit_piece <$> blits ≡ₚ seq 0 (COLS * ROWS)
    /\ Forall (fun b => blit_dest b = rect_at (pieces g) (blit_piece b)) blits
    /\ (forall h, held_piece g = Some h ->
                  last blits = Some (PieceBlit h (rect_at (pieces g) h) true))
    /\ (0 <= win_timer g)%Z.
Proof.
  intros Hplayed. pose proof (played_reachable g Hplayed) as Hreach.
  pose proof (reachable_invariant g Hreach) as Hinv.
  pose proof (inv_consistent _ Hinv) as Hc. pose proof (con_wf _ Hc) as Hwf.
  assert (draw_held (pieces g) (held_piece g)
          = Ret match held_piece g with
                | Some h => [PieceBlit h (rect_at (pieces g) h) true]
                | None => []
                end) as Hheld.
  { unfold draw_held. destruct (held_piece g) as [h|] eqn:Hh; [|done].
    destruct (held_in_range g h Hc Hh) as (p & Hp & Hpl & _).
    apply idx_Ret in Hp as Hidx. rewrite Hidx. simpl. rewrite Hpl.
    unfold rect_at. by rewrite Hp. }
  eexists. split.
  { unfold draw. rewrite draw_slots_spec by by apply wf_slot_index_in_range.
    cbn [bind]. rewrite draw_tray_spec by by apply wf_tray_in_range.
    cbn [bind]. rewrite Hheld. cbn [bind]. reflexivity. }
  split.
  { f_equal. rewrite <- (placed_pieces_filter g Hwf).
    rewrite <- (filled_slots_are_placed_pieces g Hc), <- list_fmap_compose.
    apply Forall_fmap_ext, Forall_forall.
    intros s [_ [i Hi]%list_elem_of_lookup]%list_elem_of_filter. simpl.
    by destruct (wf_slot g Hwf i s Hi) as (_ & -> & ->). }
  split; [|split; [|split; [|by apply played_timer]]].
  - rewrite !fmap_app, <- list_fmap_compose, (blit_piece_tray (rect_at (pieces g))).
    change (blit_piece ∘ (fun s => SlotBlit (Slot.index s) (Slot.rect s)))
      with Slot.index.
    rewrite (filled_slots_are_placed_pieces g Hc).
    assert (blit_piece <$> match held_piece g with
                           | Some h => [PieceBlit h (rect_at (pieces g) h) true]
                           | None => []
                           end = held_pieces g) as ->.
    { unfold held_pieces. destruct (held_piece g) as [h|] eqn:Hh; [|done].
      destruct (held_in_range g h Hc Hh) as (p & Hp & _ & Hpi & _).
      by rewrite Hp, <- Hpi. }
    rewrite app_assoc, (Permutation_app_comm (placed_pieces g)), <- app_assoc.
    by apply shown_placed_held_partition.
  - rewrite !Forall_app. split; [|split].
    + apply Forall_fmap, Forall_forall. intros s [Hf [i Hi]%list_elem_of_lookup]%list_elem_of_filter.
      simpl. destruct (wf_slot g Hwf i s Hi) as (Hlt & -> & ->).
      rewrite <- (wf_length_pieces g Hwf) in Hlt.
      destruct (lookup_lt_is_Some_2 _ _ Hlt) as [p Hp].
      assert (Piece.placed p = true) as Hpl.
      { assert ((Slot.filled <$> slots g) !! i = Some true) as E
          by (by rewrite list_lookup_fmap, Hi, <- Hf).
        rewrite (con_fill _ Hc), list_lookup_fmap, Hp in E. by injection E. }
      destruct (placed_on_slot g Hreach i p Hp Hpl) as (<- & _).
      unfold rect_at. by rewrite Hp.
    + apply Forall_fmap, Forall_forall. by intros i _.
    + destruct (held_piece g); by repeat constructor.
  - intros h Hh. rewrite Hh. by rewrite !app_assoc, last_snoc.
Qed.

Lemma draw_paints_each_piece_once_witness :
  exists blits,
    draw demo_game = Ret blits
    /\ blit_piece <$> blits = [1; 2; 3; 4; 6; 7; 8; 0; 5]
    /\ blit_piece <$> blits ≡ₚ seq 0 (COLS * ROWS)
    /\ last blits = Some (PieceBlit 5 (rect_at (pieces demo_game) 5) true).
Proof.
  destruct (draw_paints_each_piece_once demo_game)
    as (blits & Hd & Hb & Hperm & _ & Hlast & _).
  - played_by demo_inputs.
  - exists blits. split; [exact Hd|]. split; [rewrite Hb; reflexivity|].
    split; [exact Hperm|]. apply Hlast. reflexivity.
Defined.

(** ** The puzzle can always be completed *)

Lemma idle_hit_unique g x y a b :
  reachable g -> held_piece g = None ->
  hits (pieces g) x y a = true -> hits (pieces g) x y b = true -> a = b.
Proof.
  intros Hreach Hidle Ha Hb.
  pose proof (con_wf _ (inv_consistent _ (reachable_invariant g Hreach))) as Hwf.
  pose proof (idle_tidy g Hreach Hidle) as Htidy.
  destruct (tidy_hit_cell g x y a Hwf Htidy Ha) as (i & Hi & Hci).
  destruct (tidy_hit_cell g x y b Hwf Htidy Hb) as (j & Hj & Hcj).
  assert (i = j) as -> by by eapply tray_cell_disjoint. congruence.
Qed.

Lemma slot_centre_inside (r : nat) :
  collidepoint (Slot.rect (Slot.init r)) (fst (slot_centre r)) (snd (slot_centre r)) = true.
Proof.
  unfold collidepoint, Slot.init, slot_centre. cbn [Slot.rect rx ry rw rh fst snd].
  generalize (Z.of_nat (r mod COLS)) (Z.of_nat (r / COLS)) BOARD_X BOARD_Y. intros c w bx by0.
  change (TILE_SIZE / 2)%Z with 80%Z. unfold TILE_SIZE.
  rewrite !andb_true_iff, !Z.leb_le, !Z.ltb_lt. lia.
Qed.

Lemma remaining_flags (g : Game) :
  remaining g = length (filter (fun b : bool => b = false) (Piece.placed <$> pieces g)).
Proof.
  unfold remaining.
  pose proof (filter_fmap_comm Piece.placed (fun b : bool => b = false) (pieces g)) as E.
  cbv beta in E. by rewrite E, length_fmap.
Qed.

Lemma unplaced_count_insert (l : list bool) (r : nat) :
  l !! r = Some false ->
  S (length (filter (fun b : bool => b = false) (<[r := true]> l)))
  = length (filter (fun b : bool => b = false) l).
Proof.
  intros Hr. pose proof (lookup_lt_Some _ _ _ Hr) as Hlt.
  rewrite (insert_take_drop l r true Hlt).
  rewrite <- (take_drop_middle l r false Hr) at 3.
  rewrite !filter_app, !length_app.
  rewrite (filter_cons_False _ true) by done.
  rewrite (filter_cons_True _ false) by done. simpl. lia.
Qed.

Lemma remaining_zero_complete g :
  invariant g -> remaining g = 0 -> complete g = true.
Proof.
  intros Hinv H. pose proof (inv_consistent _ Hinv) as Hc.
  rewrite (inv_complete _ Hinv). apply forallb_Forall.
  unfold remaining in H. apply length_filter_zero in H.
  pose proof (Forall_fmap Slot.filled (fun b : bool => b = true) (slots g)) as E1.
  pose proof (Forall_fmap Piece.placed (fun b : bool => b = true) (pieces g)) as E2.
  unfold compose in E1, E2. apply E1. rewrite (con_fill _ Hc). apply E2.
  eapply Forall_impl; [exact H|]. intros p. simpl. by destruct (Piece.placed p).
Qed.

(** From an idle state that is not complete, clicking the first tray cell
    and releasing over the centre of the right slot places one more piece. *)
Lemma place_first_tray_piece g :
  reachable g -> held_piece g = None -> complete g = false ->
  exists r g',
    unplaced_refs (pieces g) (shuffled_tray g) !! 0 = Some r
    /\ run g (place r) = Ret g'
    /\ reachable g' /\ held_piece g' = None
    /\ Piece.placed <$> pieces g' = <[r := true]> (Piece.placed <$> pieces g)
    /\ S (remaining g') = remaining g.
Proof.
  intros Hreach Hidle Hcomp.
  pose proof (reachable_invariant g Hreach) as Hinv.
  pose proof (inv_consistent _ Hinv) as Hc. pose proof (con_wf _ Hc) as Hwf.
  (* some piece is unplaced, so the tray has a first piece *)
  destruct (unplaced_refs (pieces g) (shuffled_tray g) !! 0) as [r|] eqn:Hr0.
  2:{ exfalso. apply lookup_ge_None in Hr0.
      assert (remaining g = 0) as Hrem.
      { unfold remaining. apply length_filter_zero, Forall_lookup. intros i p Hp Hpl.
        assert (i ∈ unplaced_refs (pieces g) (shuffled_tray g)) as Hin.
        { apply list_elem_of_filter. split; [apply is_unplaced_lookup; eauto|].
          apply (wf_tray_elem g Hwf). rewrite <- (wf_length_pieces g Hwf).
          by eapply lookup_lt_Some. }
        apply list_elem_of_lookup in Hin as [j Hj].
        apply lookup_lt_Some in Hj. lia. }
      rewrite (remaining_zero_complete g Hinv Hrem) in Hcomp. done. }
  assert (is_unplaced (pieces g) r) as Hun.
  { by apply list_elem_of_lookup_2, list_elem_of_filter in Hr0 as [? _]. }
  assert (r ∈ shuffled_tray g) as Hrt.
  { by apply list_elem_of_lookup_2, list_elem_of_filter in Hr0 as [_ ?]. }
  apply is_unplaced_lookup in Hun as Hp. destruct Hp as (p & Hp & Hpl).
  (* it is the only piece under (30, 90) *)
  assert (hits (pieces g) 30 90 r = true) as Hhit.
  { apply hits_iff. split; [done|].
    pose proof (idle_tidy g Hreach Hidle 0 r Hr0) as Hrect.
    unfold rect_at. rewrite Hp in *. simpl in *. by injection Hrect as ->. }
  assert (last (filter (fun i => hits (pieces g) 30 90 i = true) (shuffled_tray g))
          = Some r) as Hlast.
  { destruct (last _) as [c|] eqn:Hl.
    - apply last_Some_elem_of, list_elem_of_filter in Hl as [Hc' _].
      f_equal. by apply (idle_hit_unique g 30 90 c r).
    - apply last_None in Hl. exfalso.
      by apply (filter_nil_not_elem_of _ _ r Hl Hhit). }
  pose proof (pointer_down_spec g 30 90 Hwf Hcomp) as Hdown. rewrite Hlast in Hdown.
  destruct Hdown as (p0 & tile & Hp0 & _ & _ & _ & Hdown).
  assert (p0 = p) as -> by congruence.
  set (g1 := pick g 30 90 r p tile) in *.
  assert (reachable g1) as Hreach1.
  { apply (reachable_step g (Ev (MOUSEBUTTONDOWN (30, 90)%Z 1))); [done|exact Hdown]. }
  pose proof (reachable_invariant g1 Hreach1) as Hinv1.
  (* the release over slot [r] *)
  destruct (pointer_up_outcome g1 r (fst (slot_centre r)) (snd (slot_centre r)) Hinv1 eq_refl)
    as (g2 & ps' & Hcase & Hkey & _ & Hup).
  assert (r < length (slots g)) as Hlt.
  { rewrite (wf_length_slots g Hwf), <- (wf_length_pieces g Hwf). by eapply lookup_lt_Some. }
  destruct (lookup_lt_is_Some_2 _ _ Hlt) as [slot Hslot].
  assert (accepts slot (fst (slot_centre r)) (snd (slot_centre r)) = true) as Hacc.
  { apply accepts_iff. split.
    - assert ((Slot.filled <$> slots g) !! r = Some (Slot.filled slot)) as E
        by (by rewrite list_lookup_fmap, Hslot).
      rewrite (con_fill _ Hc), list_lookup_fmap, Hp in E. simpl in E. congruence.
    - destruct (wf_slot g Hwf r slot Hslot) as (_ & _ & ->). apply slot_centre_inside. }
  destruct Hcase as [(slot' & p1 & tile1 & Hs' & _ & Hp1 & ->)|[Hno _]].
  2:{ rewrite (Hno slot Hslot) in Hacc. done. }
  destruct (released_fields (dropped g1 r slot' p1 tile1) ps') as (Rh & Rp & _ & _).
  assert (run g (place r) = Ret (released (dropped g1 r slot' p1 tile1) ps')) as Hrun.
  { assert (handle_event g (MOUSEBUTTONDOWN (30, 90)%Z 1) = Ret g1) as H1 by exact Hdown.
    assert (handle_event g1 (MOUSEBUTTONUP (slot_centre r) 1)
            = Ret (released (dropped g1 r slot' p1 tile1) ps')) as H2.
    { simpl. destruct (slot_centre r) as [cx cy]. exact Hup. }
    unfold place.
    change (run g [Ev (MOUSEBUTTONDOWN (30, 90)%Z 1); Ev (MOUSEBUTTONUP (slot_centre r) 1)])
      with (ga <- handle_event g (MOUSEBUTTONDOWN (30, 90)%Z 1) ;;
            gb <- handle_event ga (MOUSEBUTTONUP (slot_centre r) 1) ;; Ret gb).
    rewrite H1. cbn [bind]. rewrite H2. done. }
  assert (Piece.placed <$> pieces (released (dropped g1 r slot' p1 tile1) ps')
          = <[r := true]> (Piece.placed <$> pieces g)) as Hflags.
  { rewrite Rp, (placed_of_key ps'), Hkey, <- placed_of_key.
    cbn [dropped set_pieces set_slots pieces g1 pick set_held].
    rewrite !list_fmap_insert. cbn [snapped picked Piece.placed].
    rewrite list_insert_insert_eq. done. }
  exists r, (released (dropped g1 r slot' p1 tile1) ps').
  split; [done|]. split; [exact Hrun|]. split; [|split; [exact Rh|split; [exact Hflags|]]].
  - apply (reachable_step g1 (Ev (MOUSEBUTTONUP (slot_centre r) 1))); [done|].
    simpl. destruct (slot_centre r) as [cx cy]. exact Hup.
  - rewrite !remaining_flags, Hflags. apply unplaced_count_insert.
    by rewrite list_lookup_fmap, Hp, <- Hpl.
Qed.

Lemma idle_can_be_completed (n : nat) (g : Game) :
  reachable g -> held_piece g = None -> remaining g <= n ->
  exists events g',
    (QUIT ∉ events) /\ run g (Ev <$> events) = Ret g' /\ complete g' = true.
Proof.
  revert g. induction n as [|n IH]; intros g Hreach Hidle Hn.
  - exists [], g. split; [apply not_elem_of_nil|]. split; [done|].
    apply remaining_zero_complete; [by apply reachable_invariant|lia].
  - destruct (complete g) eqn:Hcomp.
    { exists [], g. split; [apply not_elem_of_nil|done]. }
    destruct (place_first_tray_piece g Hreach Hidle Hcomp)
      as (r & g1 & _ & Hrun & Hreach1 & Hidle1 & _ & Hrem).
    destruct (IH g1 Hreach1 Hidle1) as (events & g' & Hq & Hrun' & Hc'); [lia|].
    exists ([MOUSEBUTTONDOWN (30, 90)%Z 1; MOUSEBUTTONUP (slot_centre r) 1] ++ events), g'.
    split; [|split; [|done]].
    + rewrite not_elem_of_app. split; [|done].
      apply not_elem_of_cons. split; [done|].
      apply not_elem_of_cons. split; [done|apply not_elem_of_nil].
    + rewrite fmap_app, run_app.
      change (Ev <$> [MOUSEBUTTONDOWN (30, 90)%Z 1; MOUSEBUTTONUP (slot_centre r) 1])
        with (place r).
      by rewrite Hrun.
Qed.

(** X16.  From every reachable state the puzzle can be completed with pointer
    events alone: release whatever is held, then keep clicking the first tray
    cell and releasing over the centre of that piece's slot.  Each such
    click-and-release places exactly one more piece. *)
Theorem puzzle_can_always_be_completed (g : Game) :
  reachable g ->
  (exists events g',
      (QUIT ∉ events) /\ run g (Ev <$> events) = Ret g' /\ complete g' = true)
  /\ (held_piece g = None -> complete g = false ->
      exists r g',
        unplaced_refs (pieces g) (shuffled_tray g) !! 0 = Some r
        /\ run g (place r) = Ret g'
        /\ held_piece g' = None
        /\ Piece.placed <$> pieces g' = <[r := true]> (Piece.placed <$> pieces g)
        /\ S (remaining g') = remaining g).
Proof.
  intros Hreach. split.
  - pose proof (reachable_invariant g Hreach) as Hinv.
    destruct (handle_event_invariant g (MOUSEBUTTONUP (0, 0)%Z 1) Hinv)
      as (g0 & Hev & _); [done|].
    assert (held_piece g0 = None) as Hidle.
    { destruct (held_piece g) as [h|] eqn:Hh.
      - destruct (pointer_up_outcome g h 0 0 Hinv Hh) as (g1 & ps' & _ & _ & _ & E).
        simpl in Hev. rewrite E in Hev. injection Hev as <-.
        by destruct (released_fields g1 ps').
      - simpl in Hev. unfold pointer_up in Hev. rewrite Hh in Hev. congruence. }
    assert (reachable g0) as Hreach0.
    { by apply (reachable_step g (Ev (MOUSEBUTTONUP (0, 0)%Z 1))). }
    destruct (idle_can_be_completed (remaining g0) g0 Hreach0 Hidle)
      as (events & g' & Hq & Hrun & Hc); [done|].
    exists (MOUSEBUTTONUP (0, 0)%Z 1 :: events), g'. split; [|split; [|done]].
    + apply not_elem_of_cons. split; [done|exact Hq].
    + rewrite fmap_cons. simpl. simpl in Hev. rewrite Hev. simpl. exact Hrun.
  - intros Hidle Hcomp.
    destruct (place_first_tray_piece g Hreach Hidle Hcomp)
      as (r & g' & ? & ? & _ & ? & ? & ?). eauto 10.
Qed.

Lemma puzzle_can_always_be_completed_witness :
  exists events g',
    (QUIT ∉ events) /\ run demo_game (Ev <$> events) = Ret g' /\ complete g' = true.
Proof.
  apply (puzzle_can_always_be_completed demo_game).
  exists demo_picture, demo_rand0, demo_rand1, demo_inputs. reflexivity.
Defined.

(** ** What never happens *)

Lemma run_outcome g inputs :
  invariant g ->
  match run g inputs with
  | Ret _ => Ev QUIT ∉ inputs
  | Raise e => e = SystemExit /\ Ev QUIT ∈ inputs
  end.
Proof.
  revert g. induction inputs as [|i inputs IH]; intros g Hinv; simpl.
  - apply not_elem_of_nil.
  - destruct i as [event|ms rand]; simpl.
    + destruct (handle_event g event) as [g1|e] eqn:Hev; simpl.
      * assert (invariant g1) as Hinv1 by (by eapply (step_invariant g (Ev event))).
        specialize (IH g1 Hinv1). destruct (run g1 inputs) as [g2|e].
        -- apply not_elem_of_cons. split; [|done]. intros [= E].
           rewrite <- E in Hev. done.
        -- destruct IH as [-> Hin]. split; [done|]. by right.
      * assert (event = QUIT) as ->.
        { destruct event; [done|..];
            match goal with
            | |- ?ev = QUIT =>
                destruct (handle_event_invariant g ev Hinv ltac:(discriminate))
                  as (? & E & _); congruence
            end. }
        simpl in Hev. injection Hev as <-. split; [done|]. left.
    + destruct (end_frame_invariant ms rand g Hinv) as (g1 & -> & Hinv1). simpl.
      specialize (IH g1 Hinv1). destruct (run g1 inputs) as [g2|e].
      * apply not_elem_of_cons. split; [done|done].
      * destruct IH as [-> Hin]. split; [done|]. by right.
Qed.

(** X17.  Started on a readable picture and fed inputs the window system
    and the clock can deliver (pointer positions in their 16-bit range, frame
    durations not negative), the program never raises an [IndexError] or any
    other exception: it runs through every such input sequence that holds no
    [QUIT] event, and stops, with [SystemExit], exactly at a [QUIT]. *)
Theorem only_quit_stops_the_game (w h : Z) (rand0 rand1 : nat -> nat)
    (inputs : list Input) :
  Forall input_ok inputs ->
  match program (Readable w h) rand0 rand1 inputs with
  | Ret _ => Ev QUIT ∉ inputs
  | Raise e => e = SystemExit /\ Ev QUIT ∈ inputs
  end.
Proof.
  intros _. unfold program, main.
  destruct (module_init (Readable w h) rand0) as [g0|e] eqn:Hinit.
  - pose proof (module_init_invariant _ _ _ Hinit) as Hinv0. cbn [bind].
    destruct (new_game_spec rand1 g0 (con_wf _ (inv_consistent _ Hinv0)))
      as (ps1 & ps' & _ & _ & _ & _ & -> & Hinv1).
    cbn [bind]. by apply run_outcome.
  - exfalso. rewrite module_init_readable in Hinit.
    destruct (wf_layout_tray _ (con_wf _ (inv_consistent _ (start_state_invariant rand0))))
      as (ps' & E & _). congruence.
Qed.

Lemma only_quit_stops_the_game_witness :
  match program (Readable 1024 768) demo_rand0 demo_rand1
          (demo_inputs ++ [Tick 16 demo_rand0; Ev QUIT; Ev (KEYDOWN K_r)]) with
  | Ret _ => Ev QUIT ∉ demo_inputs ++ [Tick 16 demo_rand0; Ev QUIT; Ev (KEYDOWN K_r)]
  | Raise e =>
      e = SystemExit
      /\ Ev QUIT ∈ demo_inputs ++ [Tick 16 demo_rand0; Ev QUIT; Ev (KEYDOWN K_r)]
  end.
Proof.
  apply (only_quit_stops_the_game 1024 768 demo_rand0 demo_rand1).
  apply (bool_decide_unpack _). vm_compute. exact I.
Defined.

(** X18.  The display order is a permutation of the piece indices, and it
    changes only at the frame end that follows the restart key, where it is
    shuffled in place; no event and no other frame end touches it. *)
Theorem display_order_fixed_within_session (g g' : Game) (i : Input) :
  reachable g -> step g i = Ret g' ->
  shuffled_tray g ≡ₚ seq 0 (COLS * ROWS)
  /\ (shuffled_tray g' = shuffled_tray g
      \/ exists ms rand,
           i = Tick ms rand /\ running g = false
           /\ shuffled_tray g' = shuffle rand (shuffled_tray g)).
Proof.
  intros Hinv%reachable_invariant H.
  split; [apply (wf_tray g (con_wf _ (inv_consistent _ Hinv)))|].
  destruct i as [event|ms rand]; simpl in H.
  - left. by destruct (handle_event_session g event g' Hinv H).
  - rewrite end_frame_unfold in H. apply bind_Ret in H as (blits & _ & H).
    assert (shuffled_tray (advance ms g) = shuffled_tray g) as Ht.
    { unfold advance. by destruct (complete g). }
    destruct (running g) eqn:Hrun.
    + left. injection H as <-. exact Ht.
    + right. exists ms, rand. split; [done|]. split; [done|].
      pose proof (advance_invariant ms g Hinv) as Hadv.
      destruct (new_game_spec rand (advance ms g) (con_wf _ (inv_consistent _ Hadv)))
        as (ps1 & ps' & _ & _ & _ & _ & E & _).
      rewrite E in H. injection H as <-. simpl. by rewrite Ht.
Qed.

Lemma display_order_fixed_within_session_witness :
  shuffled_tray demo_game ≡ₚ seq 0 (COLS * ROWS)
  /\ exists g',
       step demo_game (Ev (MOUSEBUTTONUP (750, 320)%Z 1)) = Ret g'
       /\ shuffled_tray g' = shuffled_tray demo_game.
Proof.
  destruct (step demo_game (Ev (MOUSEBUTTONUP (750, 320)%Z 1))) as [g'|e] eqn:Hs;
    [|vm_compute in Hs; discriminate Hs].
  destruct (display_order_fixed_within_session demo_game g'
              (Ev (MOUSEBUTTONUP (750, 320)%Z 1))) as [Hperm Hsame].
  - exists demo_picture, demo_rand0, demo_rand1, demo_inputs. reflexivity.
  - exact Hs.
  - split; [exact Hperm|]. exists g'. split; [reflexivity|].
    destruct Hsame as [E|(ms & rand & Habs & _)]; [exact E|discriminate Habs].
Defined.

(** ** A drag that fails leaves no trace *)

Lemma layout_tray_as g :
  layout_tray g
  = (ps <- layout_pieces (map_tiles g) (pieces g) (shuffled_tray g) ;;
     Ret (set_pieces g ps)).
Proof.
  unfold layout_tray, layout_pieces.
  destruct (unplaced_of (pieces g) (shuffled_tray g)); [|done]. simpl.
  by destruct (layout_loop _ _ _ _).
Qed.

Lemma layout_fix g ps :
  layout_tray g = Ret (set_pieces g ps) <->
  layout_pieces (map_tiles g) (pieces g) (shuffled_tray g) = Ret ps.
Proof.
  rewrite layout_tray_as. split.
  - intros H. apply bind_Ret in H as (ps0 & E & H). injection H as H. congruence.
  - intros ->. done.
Qed.

Lemma layout_fix_again g ps :
  layout_tray g = Ret (set_pieces g ps) ->
  layout_pieces (map_tiles g) ps (shuffled_tray g) = Ret ps.
Proof.
  intros H. apply layout_tray_again in H.
  exact (proj1 (layout_fix (set_pieces g ps) ps) H).
Qed.

Lemma layout_pieces_agree tiles ps qs tray ps' :
  key <$> ps = key <$> qs ->
  (forall r, r ∉ unplaced_refs ps tray -> ps !! r = qs !! r) ->
  layout_pieces tiles ps tray = Ret ps' ->
  layout_pieces tiles qs tray = Ret ps'.
Proof.
  intros Hk Hout H. unfold layout_pieces in *.
  apply bind_Ret in H as (l & Hl & H). apply unplaced_of_Ret in Hl as [Hin ->].
  apply bind_Ret. exists (unplaced_refs ps tray). split.
  - apply unplaced_of_Ret. split.
    + assert (length qs = length ps) as ->; [|done].
      by rewrite <- (length_fmap key qs), <- Hk, length_fmap.
    + by apply unplaced_refs_key.
  - by eapply layout_loop_agree.
Qed.

(** Between drags the pieces are exactly what a layout would write. *)
Lemma idle_layout_fix g :
  reachable g -> held_piece g = None ->
  layout_pieces (map_tiles g) (pieces g) (shuffled_tray g) = Ret (pieces g).
Proof.
  revert g. apply (reachable_induction (fun g => held_piece g = None ->
    layout_pieces (map_tiles g) (pieces g) (shuffled_tray g) = Ret (pieces g))).
  - intros rand g g' Hinv H _.
    destruct (new_game_spec rand g (con_wf _ (inv_consistent _ Hinv)))
      as (ps1 & ps' & _ & _ & Hlay & _ & E & _).
    rewrite E in H. injection H as <-.
    exact (layout_fix_again _ _ Hlay).
  - intros g event g' Hinv IH H Hidle.
    destruct (handle_event_cases g event g' Hinv H)
      as [[->| ->]|[(x & y & i & p & tile & _ & _ & _ & _ & _ & _ & _ & ->)
         |[(pos & h & p & _ & Hh & _ & _ & ->)
          |(x & y & h & g1 & ps' & _ & _ & _ & Hcase & _ & Hlay & ->)]]].
    + by apply IH.
    + by apply IH.
    + done.
    + simpl in Hidle. congruence.
    + apply layout_fix_again in Hlay.
      unfold released. by destruct (forallb _ _).
  - intros g ms Hinv IH Hidle. unfold advance in *. destruct (complete g); auto.
Qed.

Lemma idle_last_hit g x y h :
  reachable g -> held_piece g = None -> hits (pieces g) x y h = true ->
  last (filter (fun i => hits (pieces g) x y i = true) (shuffled_tray g)) = Some h.
Proof.
  intros Hreach Hidle Hhit.
  pose proof (con_wf _ (inv_consistent _ (reachable_invariant g Hreach))) as Hwf.
  destruct (last _) as [c|] eqn:Hl.
  - apply last_Some_elem_of, list_elem_of_filter in Hl as [Hc' _].
    f_equal. by apply (idle_hit_unique g x y c h).
  - apply last_None in Hl. exfalso.
    apply (filter_nil_not_elem_of _ _ h Hl Hhit).
    apply (wf_tray_elem g Hwf). apply hits_iff in Hhit as [Hu _].
    apply is_unplaced_lookup in Hu as (p & Hp & _).
    rewrite <- (wf_length_pieces g Hwf). by eapply lookup_lt_Some.
Qed.

(** Pointer moves change the held piece's rectangle and nothing else. *)
Lemma motions_keep g h path :
  invariant g -> held_piece g = Some h ->
  exists ps,
    run g ((fun pos => Ev (MOUSEMOTION pos)) <$> path) = Ret (set_pieces g ps)
    /\ key <$> ps = key <$> pieces g
    /\ (forall r, r ≠ h -> ps !! r = pieces g !! r).
Proof.
  revert g. induction path as [|pos path IH]; intros g Hinv Hh.
  - exists (pieces g). split; [by destruct g|done].
  - destruct (held_in_range g h (inv_consistent _ Hinv) Hh) as (p0 & Hp0 & _).
    set (g1 := set_pieces g (<[h := moved p0 pos (drag_offset g)]> (pieces g))).
    assert (handle_event g (MOUSEMOTION pos) = Ret g1) as Hev.
    { simpl. unfold pointer_motion. rewrite Hh. apply idx_Ret in Hp0 as ->. done. }
    assert (key <$> pieces g1 = key <$> pieces g) as Hk1.
    { simpl. by apply (key_insert _ _ p0). }
    assert (invariant g1) as Hinv1 by (by apply invariant_set_pieces).
    destruct (IH g1 Hinv1 Hh) as (ps & Hrun & Hk & Hout).
    exists ps. rewrite fmap_cons. cbn [run step]. rewrite Hev. cbn [bind].
    split; [exact Hrun|]. split; [by rewrite Hk|].
    intros r Hr. rewrite (Hout r Hr). simpl. by apply list_lookup_insert_ne.
Qed.

Lemma unplaced_not_complete g h p :
  invariant g -> pieces g !! h = Some p -> Piece.placed p = false ->
  complete g = false.
Proof.
  intros [[Hwf Hfill Hheld] Hcomp] Hp Hpl.
  destruct (complete g); [|done]. exfalso.
  symmetry in Hcomp. apply forallb_Forall in Hcomp.
  assert ((Piece.placed <$> pieces g) !! h = Some false) as Hf.
  { by rewrite list_lookup_fmap, Hp, <- Hpl. }
  rewrite <- Hfill, list_lookup_fmap in Hf.
  destruct (slots g !! h) as [s|] eqn:Hs; [|done].
  pose proof (Forall_lookup_1 _ _ _ _ Hcomp Hs) as Hfs. simpl in *. congruence.
Qed.

(** X19.  A drag that ends outside the piece's own slot leaves no trace.
    From a state with nothing held, press the primary button on an unplaced
    piece, move the pointer along any path of positions the window system
    can report, and release at such a position anywhere but on the slot with
    the piece's number: the events run without an error and the state
    afterwards is the state before, except for [drag_offset], which keeps
    the offset of the press.  In particular the piece is back in its tray
    cell at tray size, whatever slots the pointer crossed or was released
    on. *)
Theorem failed_drag_restores_state (g : Game) (h : nat) (p : Piece.t)
    (x0 y0 x y : Z) (path : list (Z * Z)) :
  played g -> held_piece g = None ->
  pieces g !! h = Some p -> Piece.placed p = false ->
  collidepoint (Piece.rect p) x0 y0 = true ->
  Forall pointer_ok path -> pointer_ok (x, y) ->
  collidepoint (Slot.rect (Slot.init h)) x y = false ->
  run g (drag (x0, y0) path (x, y))
  = Ret (set_held g None (x0 - rx (Piece.rect p), y0 - ry (Piece.rect p))%Z).
Proof.
  intros Hreach%played_reachable Hidle Hp Hpl Hcol _ _ Hmiss.
  pose proof (reachable_invariant g Hreach) as Hinv.
  pose proof (inv_consistent _ Hinv) as Hc. pose proof (con_wf _ Hc) as Hwf.
  pose proof (unplaced_not_complete g h p Hinv Hp Hpl) as Hcomp.
  assert (hits (pieces g) x0 y0 h = true) as Hhit.
  { unfold hits. rewrite Hp, Hpl. done. }
  pose proof (pointer_down_spec g x0 y0 Hwf Hcomp) as Hdown.
  rewrite (idle_last_hit g x0 y0 h Hreach Hidle Hhit) in Hdown.
  destruct Hdown as (p' & tile & Hp' & Htile & _ & _ & Hdown).
  assert (p' = p) as -> by congruence.
  assert (invariant (pick g x0 y0 h p tile)) as Hinva.
  { split; [by apply consistent_pick|]. simpl. apply Hinv. }
  destruct (motions_keep (pick g x0 y0 h p tile) h path Hinva eq_refl)
    as (ps & Hrun & Hk & Hout).
  assert (key <$> ps = key <$> pieces g) as Hkg.
  { rewrite Hk. simpl. by apply (key_insert _ _ p). }
  assert (invariant (set_pieces (pick g x0 y0 h p tile) ps)) as Hinvb.
  { by apply invariant_set_pieces. }
  destruct (pointer_up_outcome _ h x y Hinvb eq_refl)
    as (g1 & ps' & Hcase & _ & Hlay & Hup).
  destruct Hcase as [(slot & q & tile' & Hs & Hacc & _)|[_ ->]].
  { exfalso. simpl in Hs. destruct (wf_slot g Hwf h slot Hs) as (_ & _ & Hr).
    unfold accepts in Hacc. rewrite Hr, Hmiss, andb_false_r in Hacc. done. }
  apply layout_fix in Hlay. simpl in Hlay.
  assert (ps' = pieces g) as ->.
  { pose proof (idle_layout_fix g Hreach Hidle) as Hfix.
    apply (layout_pieces_agree _ _ ps) in Hfix; [congruence|done|].
    intros r Hr. rewrite Hout; [simpl; symmetry; apply list_lookup_insert_ne|];
      intros ->; apply Hr; apply list_elem_of_filter;
      (split; [apply is_unplaced_lookup; eauto|]);
      apply (wf_tray_elem g Hwf);
      rewrite <- (wf_length_pieces g Hwf); by eapply lookup_lt_Some. }
  unfold drag. cbn [run step handle_event]. change (1 =? 1)%Z with true. cbv iota.
  rewrite Hdown. cbn [bind]. rewrite run_app, Hrun. cbn [bind run step handle_event].
  change (1 =? 1)%Z with true. cbv iota. rewrite Hup. cbn [bind].
  unfold released. cbn [slots set_pieces set_held pick].
  rewrite <- (inv_complete _ Hinv), Hcomp.
  destruct g. simpl in *. by subst.
Qed.

Lemma failed_drag_restores_state_witness :
  collidepoint (Slot.rect (Slot.init 0)) 430 160 = true
  /\ run one_placed_game
         (drag (30, 90)%Z [(200, 120); (590, 160); (750, 160)]%Z (430, 160)%Z)
     = Ret (set_held one_placed_game None (8, 10)%Z).
Proof.
  split; [reflexivity|].
  apply (failed_drag_restores_state one_placed_game 2
           {| Piece.index := 2;
              Piece.image := scale (slice_tile TILE_SIZE 0 2) (tile_w, tile_w);
              Piece.placed := false;
              Piece.rect := tray_cell 0 |}
           30 90 430 160); try reflexivity.
  - played_by one_placed_inputs.
  - apply (bool_decide_unpack _). vm_compute. exact I.
  - unfold pointer_ok. simpl. lia.
Defined.

(** ** After the win *)

Lemma won_event_ignored g event :
  invariant g -> complete g = true -> inert (Ev event) ->
  handle_event g event = Ret g.
Proof.
  intros Hinv Hc Hi. pose proof (complete_not_held g Hinv Hc) as Hh.
  destruct event as [|key|pos button|pos|pos button|]; simpl in *.
  - done.
  - apply Z.eqb_neq in Hi. by rewrite Hi.
  - unfold pointer_down. rewrite Hc. by destruct (button =? 1)%Z.
  - unfold pointer_motion. by rewrite Hh.
  - unfold pointer_up. rewrite Hh. by destruct (button =? 1)%Z.
  - done.
Qed.

Lemma won_run g inputs :
  invariant g -> complete g = true -> running g = true -> Forall inert inputs ->
  run g inputs = Ret (set_win g true (win_timer g + elapsed inputs)).
Proof.
  intros Hinv Hc Hr Hall. revert g Hinv Hc Hr.
  induction Hall as [|i inputs Hi _ IH]; intros g Hinv Hc Hr.
  - cbn [run elapsed]. rewrite Z.add_0_r. destruct g. simpl in *. by subst.
  - destruct i as [event|ms rand]; cbn [run step elapsed].
    + rewrite (won_event_ignored g event Hinv Hc Hi). cbn [bind]. by apply IH.
    + rewrite end_frame_unfold.
      pose proof (advance_invariant ms g Hinv) as Hadv.
      destruct (draw_spec _ (inv_consistent _ Hadv)) as (on_board & _ & ->).
      cbn [bind]. rewrite Hr. cbn [bind].
      unfold advance in *. rewrite Hc in *.
      rewrite (IH _ Hadv eq_refl Hr). cbn [set_win win_timer].
      by rewrite Z.add_assoc.
Qed.

Lemma elapsed_nonnegative (inputs : list Input) :
  Forall tick_ok inputs -> (0 <= elapsed inputs)%Z.
Proof.
  induction 1 as [|i inputs Hi _ IH]; simpl; [done|].
  destruct i as [event|ms rand]; simpl in *; lia.
Qed.

(** X20.  A finished puzzle is frozen until it is restarted or closed.  In a
    complete state of a game whose [running] flag is still set, any run of
    inputs without a window close and without the R key, whatever pointer
    presses, moves and releases or other keys it holds, with frame durations
    that are not negative, runs without an error and changes nothing but
    [win_timer], which grows by the time of the frames in the run and stays
    non-negative. *)
Theorem won_game_only_counts_time (g : Game) (inputs : list Input) :
  played g -> complete g = true -> running g = true ->
  Forall inert inputs -> Forall tick_ok inputs ->
  run g inputs = Ret (set_win g true (win_timer g + elapsed inputs))
  /\ (0 <= win_timer g <= win_timer g + elapsed inputs)%Z.
Proof.
  intros Hplayed Hc Hr Hinert Hticks. split.
  - apply won_run; [|done..]. by apply reachable_invariant, played_reachable.
  - split; [by apply played_timer|].
    pose proof (elapsed_nonnegative inputs Hticks). lia.
Qed.

Lemma won_game_only_counts_time_witness :
  win_timer solved_game = 16%Z
  /\ run solved_game
         [Ev (MOUSEBUTTONDOWN (30, 90)%Z 1); Ev (MOUSEMOTION (400, 300)%Z);
          Tick 16 demo_rand0; Ev (KEYDOWN 97); Ev (MOUSEBUTTONUP (430, 160)%Z 1);
          Tick 17 demo_rand0]
     = Ret (set_win solved_game true 49).
Proof.
  split; [reflexivity|].
  apply (won_game_only_counts_time solved_game
           [Ev (MOUSEBUTTONDOWN (30, 90)%Z 1); Ev (MOUSEMOTION (400, 300)%Z);
            Tick 16 demo_rand0; Ev (KEYDOWN 97); Ev (MOUSEBUTTONUP (430, 160)%Z 1);
            Tick 17 demo_rand0]).
  - played_by solved_inputs.
  - reflexivity.
  - reflexivity.
  - repeat constructor. discriminate.
  - repeat constructor; simpl; lia.
Defined.

(** ** Pick-up order and paint order *)



